(** * DynamoDB-to-Snowflake loader: flattener, schema inference and the two
      load modes, embedded from [utils/flatten.py] and [lambda_function.py]. *)

From Stdlib Require Import List String Ascii Bool Arith ZArith Lia.
From Stdlib Require Import DecimalString DecimalNat Decimal.
From Stdlib Require Import Sorting.Mergesort Sorting.Permutation Sorting.Sorted Orders.
Import ListNotations.
Open Scope string_scope.
Open Scope list_scope.

(** ** Values *)

(** The leaves the flattener meets: everything that is neither a [Mapping]
    nor a [list].  Numbers come out of the DynamoDB deserializer as
    [Decimal]; the loader never computes with them, so an integer carrier is
    enough here. *)
Inductive scalar : Type :=
| SNone
| SBool (b : bool)
| SNum (n : Z)
| SStr (s : string).

Definition scalar_eqb (a b : scalar) : bool :=
  match a, b with
  | SNone, SNone => true
  | SBool x, SBool y => Bool.eqb x y
  | SNum x, SNum y => Z.eqb x y
  | SStr x, SStr y => String.eqb x y
  | _, _ => false
  end.

(** A deserialized item: Python [dict] (insertion ordered, keys unique),
    [list], or a leaf. *)
Unset Elimination Schemes.
Inductive json : Type :=
| JLeaf (x : scalar)
| JList (vs : list json)
| JMap (kvs : list (string * json)).
Set Elimination Schemes.

(** Structural induction that reaches the elements of lists and the values
    of mappings. *)
Definition json_ind (P : json -> Prop)
  (Hleaf : forall x, P (JLeaf x))
  (Hlist : forall vs, Forall P vs -> P (JList vs))
  (Hmap : forall kvs, Forall (fun kv => P (snd kv)) kvs -> P (JMap kvs))
  : forall v, P v :=
  fix go (v : json) : P v :=
    match v with
    | JLeaf x => Hleaf x
    | JList vs =>
        Hlist vs
          ((fix all (l : list json) : Forall P l :=
              match l with
              | [] => Forall_nil P
              | x :: r => Forall_cons x (go x) (all r)
              end) vs)
    | JMap kvs =>
        Hmap kvs
          ((fix all (l : list (string * json))
              : Forall (fun kv => P (snd kv)) l :=
              match l with
              | [] => Forall_nil _
              | kv :: r =>
                  Forall_cons (P := fun kv => P (snd kv)) kv
                    (go (snd kv)) (all r)
              end) kvs)
    end.

(** ** Python dictionaries

    Insertion-ordered association lists.  [setitem] is [d[k] = v]: an
    existing key keeps its position and gets the new value, a new key goes to
    the end. *)
Module Dict.
Section WithValue.
Context {V : Type}.

Definition t := list (string * V).

Definition keys (d : t) : list string := map fst d.

Fixpoint lookup (d : t) (k : string) : option V :=
  match d with
  | [] => None
  | (k', v) :: r => if String.eqb k' k then Some v else lookup r k
  end.

Fixpoint setitem (d : t) (k : string) (v : V) : t :=
  match d with
  | [] => [(k, v)]
  | (k', v') :: r =>
      if String.eqb k' k then (k', v) :: r else (k', v') :: setitem r k v
  end.

(** [d.update(other)] *)
Definition update (d other : t) : t :=
  fold_left (fun acc kv => setitem acc (fst kv) (snd kv)) other d.

End WithValue.
Arguments t : clear implicits.
End Dict.

(** [d.get(k)]: the value, or [None] when the key is absent. *)
Definition dict_get (d : Dict.t scalar) (k : string) : scalar :=
  match Dict.lookup d k with
  | Some v => v
  | None => SNone
  end.

(** ** utils/flatten.py *)

(** [str(idx)] *)
Definition str_of_nat (n : nat) : string :=
  NilEmpty.string_of_uint (Nat.to_uint n).

(** Truthiness of a [str]. *)
Definition truthy (s : string) : bool :=
  match s with
  | EmptyString => false
  | String _ _ => true
  end.

(** [f"{parent_key}{sep}{key}" if parent_key else key] *)
Definition new_key (parent_key sep key : string) : string :=
  if truthy parent_key then parent_key ++ sep ++ key else key.

Fixpoint flatten_json (data : json) (parent_key sep : string)
  : Dict.t scalar :=
  match data with
  | JMap kvs =>
      fold_left
        (fun items kv =>
           Dict.update items
             (flatten_json (snd kv) (new_key parent_key sep (fst kv)) sep))
        kvs []
  | JList vs =>
      snd (fold_left
             (fun st value =>
                (S (fst st),
                 Dict.update (snd st)
                   (flatten_json value
                      (new_key parent_key sep (str_of_nat (fst st))) sep)))
             vs (0, []))
  | JLeaf x => Dict.setitem [] parent_key x
  end.

(** ** lambda_function.py: environment *)

(** The module-level settings read with [os.getenv] that the load functions
    use. *)
Record config : Type := {
  DDB_TABLE : string;
  SNOW_DATABASE : string;
  SNOW_SCHEMA : string;
  SNOW_TABLE : string;
  BATCH_SIZE : Z
}.

(** [{SNOW_DATABASE}.{SNOW_SCHEMA}.{SNOW_TABLE}] *)
Definition relation_name (cfg : config) : string :=
  SNOW_DATABASE cfg ++ "." ++ SNOW_SCHEMA cfg ++ "." ++ SNOW_TABLE cfg.

(** ** Column inference *)

Module StringOrder <: TotalLeBool.
Definition t := string.
Definition leb := String.leb.
Definition leb_total
  : forall a b, leb a b = true \/ leb b a = true := String.leb_total.
End StringOrder.

Module StringSort := Sort StringOrder.

(** [sorted(...)] on a list of [str]. *)
Definition sorted (l : list string) : list string := StringSort.sort l.

Definition infer_columns (sample_record : json) : list string :=
  let flat := flatten_json sample_record "" "_" in
  sorted (Dict.keys flat).

(** A row handed to the connector: column name to bound value. *)
Definition Row := Dict.t scalar.

(** [{col: flat.get(col) for col in columns}] *)
Definition project (flat : Dict.t scalar) (columns : list string) : Row :=
  fold_left (fun row col => Dict.setitem row col (dict_get flat col))
    columns [].

(** ** The statements the loader builds

    Each statement is kept in the shape its f-string gives it; [sql_text]
    is the text sent to the connector. *)
Record merge_stmt : Type := {
  merge_into : string;                (* MERGE INTO ... T *)
  merge_select : list string;         (* USING (SELECT %(c)s AS c, ...) S *)
  merge_on : string * string;         (* ON T.l = S.r *)
  merge_update : list string;         (* UPDATE SET T.c=S.c, ... *)
  merge_insert_columns : list string; (* INSERT (c, ...) *)
  merge_insert_values : list string   (* VALUES (S.c, ...) *)
}.

Inductive statement : Type :=
| CreateTable (relation : string)
| InsertInto (relation : string) (columns : list string)
| MergeInto (m : merge_stmt).

Definition join (sep : string) (l : list string) : string :=
  String.concat sep l.

Definition LF : string := String (ascii_of_nat 10) EmptyString.

Definition sql_text (st : statement) : string :=
  match st with
  | CreateTable rel =>
      LF ++ "CREATE TABLE IF NOT EXISTS " ++ rel ++ " (" ++ LF
         ++ "  -- we'll infer columns dynamically on first run" ++ LF
         ++ ");" ++ LF
  | InsertInto rel columns =>
      "INSERT INTO " ++ rel ++ " "
        ++ "(" ++ join ", " columns ++ ") VALUES ("
        ++ join ", " (map (fun col => ("%(" ++ col ++ ")s")%string) columns) ++ ")"
  | MergeInto m =>
      "MERGE INTO " ++ merge_into m ++ " T "
        ++ "USING (SELECT "
        ++ join ", "
             (map (fun col => ("%(" ++ col ++ ")s AS " ++ col)%string)
                (merge_select m))
        ++ ") S ON T." ++ fst (merge_on m) ++ " = S." ++ snd (merge_on m) ++ " "
        ++ "WHEN MATCHED THEN UPDATE SET "
        ++ join ", "
             (map (fun col => ("T." ++ col ++ "=S." ++ col)%string)
                (merge_update m))
        ++ " "
        ++ "WHEN NOT MATCHED THEN INSERT ("
        ++ join ", " (merge_insert_columns m) ++ ") "
        ++ "VALUES ("
        ++ join ", " (map (fun c => ("S." ++ c)%string) (merge_insert_values m)) ++ ")"
  end.

(** [CREATE_TABLE_DDL] *)
Definition CREATE_TABLE_DDL (cfg : config) : statement :=
  CreateTable (relation_name cfg).

(** [insert_sql] of [load_truncate] *)
Definition insert_sql (cfg : config) (columns : list string) : statement :=
  InsertInto (relation_name cfg) columns.

(** [merge_sql] of [load_upsert]: [sel], [update] and the two column lists
    all come from [columns]; the key of the [ON] clause and the column left
    out of [update] are the literal ["uuid"]. *)
Definition merge_sql (cfg : config) (columns : list string) : merge_stmt :=
  {| merge_into := relation_name cfg;
     merge_select := columns;
     merge_on := ("uuid", "uuid");
     merge_update :=
       filter (fun col => negb (String.eqb col "uuid")) columns;
     merge_insert_columns := columns;
     merge_insert_values := columns |}.

Definition cfg_example : config :=
  {| DDB_TABLE := "items"; SNOW_DATABASE := "DB"; SNOW_SCHEMA := "PUBLIC";
     SNOW_TABLE := "ITEMS"; BATCH_SIZE := 500 |}.

(** ** The sink

    Modelled from the spec: the sink is the Snowflake relation behind the
    connector, outside the repository.  Its three capabilities are taken from
    the interface description (create-if-absent, batch insert, merge by key:
    update every listed column of each row whose key matches, insert the
    full row when none does), applied to the statement the loader builds.
    A bound statement is rejected when a [%(c)s] placeholder has no
    parameter.  A stored row is a dictionary from column to value, a missing
    column reading as NULL.  The interface leaves open what a merge does
    when its key is not among the columns; the results on merges below are
    for samples that carry the key. *)
Definition table := list Row.

(** SQL equality: NULL equals nothing, itself included. *)
Definition sql_eq (a b : scalar) : bool :=
  match a, b with
  | SNone, _ => false
  | _, SNone => false
  | _, _ => scalar_eqb a b
  end.

(** One value per placeholder [%(c)s], in the order of [cols]. *)
Fixpoint bind_params (cols : list string) (params : Row) : option Row :=
  match cols with
  | [] => Some []
  | c :: r =>
      match Dict.lookup params c, bind_params r params with
      | Some v, Some row => Some ((c, v) :: row)
      | _, _ => None
      end
  end.

(** [UPDATE SET T.c = S.c] for each [c] of [cols]. *)
Definition set_columns (cols : list string) (s_row : Row) (r : Row) : Row :=
  fold_left (fun r c => Dict.setitem r c (dict_get s_row c)) cols r.

Definition merge_matches (m : merge_stmt) (s_row : Row) (r : Row) : bool :=
  sql_eq (dict_get r (fst (merge_on m))) (dict_get s_row (snd (merge_on m))).

(** A matching row takes the listed columns of [S]; any other row is left
    alone. *)
Definition update_matched (m : merge_stmt) (s_row : Row) (r : Row) : Row :=
  if merge_matches m s_row r
  then set_columns (merge_update m) s_row r
  else r.

(** [INSERT (c, ...) VALUES (S.c, ...)] *)
Definition inserted_row (m : merge_stmt) (s_row : Row) : Row :=
  combine (merge_insert_columns m)
    (map (dict_get s_row) (merge_insert_values m)).

(** [WHEN MATCHED THEN UPDATE ... WHEN NOT MATCHED THEN INSERT ...] *)
Definition merge_rows (m : merge_stmt) (s_row : Row) (t : table) : table :=
  if existsb (merge_matches m s_row) t
  then map (update_matched m s_row) t
  else t ++ [inserted_row m s_row].

Definition run_merge (m : merge_stmt) (params : Row) (t : table)
  : option table :=
  match bind_params (merge_select m) params with
  | None => None
  | Some s_row =>
      Some (merge_rows m s_row t)
  end.

(** The relation after one statement; [None] when the sink rejects it. *)
Definition run_statement (st : statement) (params : Row) (db : option table)
  : option (option table) :=
  match st with
  | CreateTable _ =>
      Some (match db with None => Some [] | Some t => Some t end)
  | InsertInto _ cols =>
      match db, bind_params cols params with
      | Some t, Some row => Some (Some (t ++ [row]))
      | _, _ => None
      end
  | MergeInto m =>
      match db with
      | Some t => option_map Some (run_merge m params t)
      | None => None
      end
  end.

Fixpoint run_many (st : statement) (batch : list Row) (db : option table)
  : option (option table) :=
  match batch with
  | [] => Some db
  | params :: rest =>
      match run_statement st params db with
      | Some db' => run_many st rest db'
      | None => None
      end
  end.

(** ** Connection, cursor and logger as explicit state *)

Inductive call : Type :=
| Execute (st : statement) (params : Row)
| ExecuteMany (st : statement) (batch : list Row)
| Commit
| CursorClose
| ConnClose.

Record world : Type := {
  snow_table : option table;   (* the destination relation, if it exists *)
  calls : list call;           (* what cursor and connection received *)
  warnings : list string       (* logger.warning *)
}.

Inductive exn : Type :=
| ProgrammingError (st : statement).

Inductive outcome (A : Type) : Type :=
| Ret (a : A)
| Raise (e : exn).
Arguments Ret {A} a.
Arguments Raise {A} e.

Definition M (A : Type) : Type := world -> outcome A * world.

Definition ret {A} (a : A) : M A := fun w => (Ret a, w).

Definition bind {A B} (m : M A) (k : A -> M B) : M B :=
  fun w =>
    match m w with
    | (Ret a, w') => k a w'
    | (Raise e, w') => (Raise e, w')
    end.

Notation "x <- m ;; k" := (bind m (fun x => k))
  (at level 61, m at next level, right associativity).
Notation "m ;; k" := (bind m (fun _ => k))
  (at level 61, right associativity).

(** [try: body finally: fin] *)
Definition try_finally {A} (body : M A) (fin : M unit) : M A :=
  fun w =>
    match body w with
    | (r, w') =>
        match fin w' with
        | (Ret _, w'') => (r, w'')
        | (Raise e, w'') => (Raise e, w'')
        end
    end.

(** [for x in l: acc = body(acc, x)] *)
Fixpoint for_each {A St} (l : list A) (acc : St)
  (body : St -> A -> M St) : M St :=
  match l with
  | [] => ret acc
  | x :: r => acc' <- body acc x ;; for_each r acc' body
  end.

Definition record (c : call) (w : world) : world :=
  {| snow_table := snow_table w;
     calls := calls w ++ [c];
     warnings := warnings w |}.

Definition with_table (db : option table) (w : world) : world :=
  {| snow_table := db; calls := calls w; warnings := warnings w |}.

Definition cur_execute (st : statement) (params : Row) : M unit :=
  fun w =>
    let w := record (Execute st params) w in
    match run_statement st params (snow_table w) with
    | Some db => (Ret tt, with_table db w)
    | None => (Raise (ProgrammingError st), w)
    end.

Definition cur_executemany (st : statement) (batch : list Row) : M unit :=
  fun w =>
    let w := record (ExecuteMany st batch) w in
    match run_many st batch (snow_table w) with
    | Some db => (Ret tt, with_table db w)
    | None => (Raise (ProgrammingError st), w)
    end.

Definition conn_commit : M unit := fun w => (Ret tt, record Commit w).
Definition cur_close : M unit := fun w => (Ret tt, record CursorClose w).
Definition conn_close : M unit := fun w => (Ret tt, record ConnClose w).

Definition logger_warning (msg : string) : M unit :=
  fun w =>
    (Ret tt,
     {| snow_table := snow_table w;
        calls := calls w;
        warnings := warnings w ++ [msg] |}).

(** ** Load functions *)

Definition ensure_table (cfg : config) : M unit :=
  cur_execute (CREATE_TABLE_DDL cfg) [].

(** [len(batch) >= BATCH_SIZE] *)
Definition batch_full (cfg : config) (batch : list Row) : bool :=
  (BATCH_SIZE cfg <=? Z.of_nat (List.length batch))%Z.

(** [scan_dynamodb] stands for the items one call of the generator yields,
    in scan order; every call starts a fresh scan. *)
Definition load_truncate (cfg : config) (scan_dynamodb : list json)
  : M unit :=
  ensure_table cfg ;;
  match scan_dynamodb with
  | [] => logger_warning "No items in DynamoDB table."
  | first_rec :: _ =>
      let columns := infer_columns first_rec in
      let insert_sql := insert_sql cfg columns in
      batch <- for_each ([first_rec] ++ scan_dynamodb) []
                 (fun batch rec =>
                    let flat := flatten_json rec "" "_" in
                    let row := project flat columns in
                    let batch := batch ++ [row] in
                    if batch_full cfg batch then
                      cur_executemany insert_sql batch ;;
                      conn_commit ;;
                      ret []
                    else ret batch) ;;
      match batch with
      | [] => ret tt
      | _ :: _ => cur_executemany insert_sql batch ;; conn_commit
      end ;;
      cur_close
  end.

Definition load_upsert (cfg : config) (scan_dynamodb : list json)
  : M unit :=
  ensure_table cfg ;;
  match scan_dynamodb with
  | [] => logger_warning "No items in DynamoDB table."
  | first_rec :: _ =>
      let columns := infer_columns first_rec in
      let merge_sql := MergeInto (merge_sql cfg columns) in
      for_each scan_dynamodb tt
        (fun _ rec =>
           let flat := flatten_json rec "" "_" in
           let row := project flat columns in
           cur_execute merge_sql row) ;;
      conn_commit ;;
      cur_close
  end.

(** ** Lambda handlers

    [get_snowflake_connection] is the acquisition of the session, outside
    the load engine; the handlers are taken from the point where [conn]
    exists. *)

Record response : Type := {
  statusCode : Z;
  body : string
}.

Definition truncate_load_handler (cfg : config) (scan_dynamodb : list json)
  : M response :=
  try_finally
    (load_truncate cfg scan_dynamodb ;;
     ret {| statusCode := 200; body := "Full load succeeded" |})
    conn_close.

Definition incremental_upsert_handler (cfg : config)
  (scan_dynamodb : list json) : M response :=
  try_finally
    (load_upsert cfg scan_dynamodb ;;
     ret {| statusCode := 200; body := "Upsert succeeded" |})
    conn_close.

(** ** Observations on a run *)

(** The batches handed to [executemany], in call order. *)
Definition batches (cs : list call) : list (list Row) :=
  flat_map (fun c => match c with
                     | ExecuteMany _ b => [b]
                     | _ => []
                     end) cs.

(** The rows handed to [execute] with a merge statement, in call order. *)
Definition merges (cs : list call) : list Row :=
  flat_map (fun c => match c with
                     | Execute (MergeInto _) r => [r]
                     | _ => []
                     end) cs.

Definition world0 : world :=
  {| snow_table := None; calls := []; warnings := [] |}.

(** ** The flattener on the object store

    Python evaluates [flatten_json] on objects.  A [dict] or a [list] is
    reached through a reference, [items = {}] creates a new object, and
    [items.update(...)] and [items[parent_key] = data] change [items] in
    place; the dictionary a recursive call returns is a further object, read
    once by [update].  A [dict] object holds its entries in insertion order,
    the order in which the language iterates it.  Leaves ([str], [Decimal],
    [bool], [None]) are immutable and stand for themselves. *)
Module ObjectStore.

Inductive value : Type :=
| VScalar (x : scalar)
| VRef (l : nat).

Inductive object : Type :=
| ODict (d : Dict.t value)
| OList (vs : list value).

(** Objects by address; a new object takes the next free address. *)
Definition store := list object.

(** [{}] *)
Definition new_dict (h : store) : nat * store :=
  (List.length h, h ++ [ODict []]).

Fixpoint write (h : store) (l : nat) (o : object) : store :=
  match h, l with
  | [], _ => []
  | _ :: r, 0 => o :: r
  | x :: r, S l' => x :: write r l' o
  end.

(** [items[k] = v] *)
Definition dict_setitem (items : nat) (k : string) (v : value) (h : store)
  : option store :=
  match nth_error h items with
  | Some (ODict d) => Some (write h items (ODict (Dict.setitem d k v)))
  | _ => None
  end.

(** [items.update(other)] *)
Definition dict_update (items other : nat) (h : store) : option store :=
  match nth_error h items, nth_error h other with
  | Some (ODict d), Some (ODict d') =>
      Some (write h items (ODict (Dict.update d d')))
  | _, _ => None
  end.

(** A [for] loop whose body changes the store. *)
Fixpoint for_each {A : Type} (body : A -> store -> option store)
  (xs : list A) (h : store) : option store :=
  match xs with
  | [] => Some h
  | x :: r =>
      match body x h with
      | Some h' => for_each body r h'
      | None => None
      end
  end.

Definition enumerate {A : Type} (xs : list A) : list (nat * A) :=
  combine (seq 0 (List.length xs)) xs.

(** [flatten_json(data, parent_key, sep)] returns the address of [items].
    [fuel] bounds the depth of the recursion, as the interpreter's recursion
    limit does; the entries of [data] are read when the loop starts. *)
Fixpoint flatten_json (fuel : nat) (data : value) (parent_key sep : string)
  (h : store) : option (nat * store) :=
  match fuel with
  | 0 => None
  | S fuel' =>
      let (items, h0) := new_dict h in
      let step value new_key h :=
        match flatten_json fuel' value new_key sep h with
        | Some (sub, h') => dict_update items sub h'
        | None => None
        end in
      option_map (pair items)
        match data with
        | VRef l =>
            match nth_error h0 l with
            | Some (ODict d) =>
                for_each
                  (fun kv =>
                     step (snd kv) (new_key parent_key sep (fst kv)))
                  d h0
            | Some (OList vs) =>
                for_each
                  (fun iv =>
                     step (snd iv)
                       (new_key parent_key sep (str_of_nat (fst iv))))
                  (enumerate vs) h0
            | None => None
            end
        | VScalar _ => dict_setitem items parent_key data h0
        end
  end.

(** [represents h v r]: in the store [h] the value [v] is the record [r]. *)
Unset Elimination Schemes.
Inductive represents (h : store) : value -> json -> Prop :=
| represents_leaf : forall x, represents h (VScalar x) (JLeaf x)
| represents_list : forall l vs js,
    nth_error h l = Some (OList vs) ->
    Forall2 (represents h) vs js ->
    represents h (VRef l) (JList js)
| represents_map : forall l d kvs,
    nth_error h l = Some (ODict d) ->
    Forall2 (fun e kv => fst e = fst kv /\ represents h (snd e) (snd kv))
      d kvs ->
    represents h (VRef l) (JMap kvs).
Set Elimination Schemes.

(** A flat record as the dictionary object holding it. *)
Definition flat_object (f : Dict.t scalar) : object :=
  ODict (map (fun kv => (fst kv, VScalar (snd kv))) f).

End ObjectStore.

(** Nesting depth of a record. *)
Fixpoint depth (data : json) : nat :=
  match data with
  | JLeaf _ => 0
  | JList vs => S (list_max (map depth vs))
  | JMap kvs => S (list_max (map (fun kv => depth (snd kv)) kvs))
  end.

(** {"x": [{"y": 2}]} as three objects, innermost first. *)
Definition store_x0y : ObjectStore.store :=
  [ObjectStore.ODict [("y", ObjectStore.VScalar (SNum 2))];
   ObjectStore.OList [ObjectStore.VRef 0];
   ObjectStore.ODict [("x", ObjectStore.VRef 1)]].

(** One loop iteration: the recursive call, then [items.update]. *)
Definition step_at (fuel : nat) (sep : string) (items : nat)
  (value : ObjectStore.value) (new_key : string) (h : ObjectStore.store)
  : option ObjectStore.store :=
  match ObjectStore.flatten_json fuel value new_key sep h with
  | Some (sub, h') => ObjectStore.dict_update items sub h'
  | None => None
  end.

(** With recursion budget [fuel] the call on any object that is [r] returns
    a new dictionary holding [flatten_json r], after the objects that were
    there. *)
Definition runs_at (r : json) (fuel : nat) : Prop :=
  forall h v parent_key sep,
    ObjectStore.represents h v r ->
    exists garbage,
      ObjectStore.flatten_json fuel v parent_key sep h
      = Some (List.length h,
              h ++ ObjectStore.flat_object (flatten_json r parent_key sep)
                :: garbage).

Definition record_x0y : json :=
  JMap [("x", JList [JMap [("y", JLeaf (SNum 2))]])].

(** The store the first call leaves behind. *)
Definition store_after_call : ObjectStore.store :=
  match ObjectStore.flatten_json 4 (ObjectStore.VRef 2) "" "_" store_x0y with
  | Some (_, h') => h'
  | None => []
  end.

(** Scalar leaves reachable in a record. *)
Fixpoint leaves (data : json) : nat :=
  match data with
  | JLeaf _ => 1
  | JList vs => list_sum (map leaves vs)
  | JMap kvs => list_sum (map (fun kv => leaves (snd kv)) kvs)
  end.

(** ** The two loop bodies of [flatten_json] *)

Definition map_step (parent_key sep : string)
  (items : Dict.t scalar) (kv : string * json) : Dict.t scalar :=
  Dict.update items
    (flatten_json (snd kv) (new_key parent_key sep (fst kv)) sep).

Definition list_step (parent_key sep : string)
  (st : nat * Dict.t scalar) (value : json) : nat * Dict.t scalar :=
  (S (fst st),
   Dict.update (snd st)
     (flatten_json value (new_key parent_key sep (str_of_nat (fst st))) sep)).

(** ** Shapes of records *)

Fixpoint distinct (l : list string) : bool :=
  match l with
  | [] => true
  | x :: r => negb (existsb (String.eqb x) r) && distinct r
  end.

(** Every mapping of the record has pairwise distinct keys, as a Python
    [dict] does. *)
Fixpoint unique_keys (data : json) : bool :=
  match data with
  | JLeaf _ => true
  | JList vs => forallb unique_keys vs
  | JMap kvs =>
      distinct (map fst kvs) && forallb (fun kv => unique_keys (snd kv)) kvs
  end.

Definition occurs (c : ascii) (s : string) : bool :=
  existsb (Ascii.eqb c) (list_ascii_of_string s).

(** A key that is not empty and does not contain the character [c]. *)
Definition clean_key (c : ascii) (key : string) : bool :=
  truthy key && negb (occurs c key).

(** No mapping key of the record is empty or contains the character [c]. *)
Fixpoint clean_keys (c : ascii) (data : json) : bool :=
  match data with
  | JLeaf _ => true
  | JList vs => forallb (clean_keys c) vs
  | JMap kvs =>
      forallb (fun kv => clean_key c (fst kv) && clean_keys c (snd kv)) kvs
  end.

Definition is_digit (c : ascii) : bool :=
  existsb (Ascii.eqb c) (list_ascii_of_string "0123456789").

(** [key] is the prefix [q] itself or continues it after a separator. *)
Definition under (q sep key : string) : Prop :=
  key = q \/ exists rest, key = (q ++ sep ++ rest)%string.

Definition keys_under_at (sep : string) (data : json) : Prop :=
  forall q key, q <> "" ->
    In key (Dict.keys (flatten_json data q sep)) -> under q sep key.

Definition exact_at (c : ascii) (data : json) : Prop :=
  forall q,
    List.length (flatten_json data q (String c "")) = leaves data.

(** A record in which a key contains the separator. *)
Definition colliding_record : json :=
  JMap [("a_b", JLeaf (SNum 1)); ("a", JMap [("b", JLeaf (SNum 2))])].

(** A record with an empty key and no separator in any key. *)
Definition empty_key_record : json :=
  JMap [("", JMap [("a", JLeaf (SNum 1))]); ("a", JLeaf (SNum 2))].

(** ** Key-column policy of a merge *)

(** Column [k] is the merge key of [m]: matched on, inserted, never
    overwritten. *)
Definition key_policy (k : string) (m : merge_stmt) : Prop :=
  ~ In k (merge_update m)
  /\ merge_on m = (k, k)
  /\ In k (merge_insert_columns m).

(** A source whose records are keyed by [id]. *)
Definition record_keyed_by_id : json :=
  JMap [("id", JLeaf (SStr "1")); ("name", JLeaf (SStr "x"))].

Definition record_a : json :=
  JMap [("uuid", JLeaf (SStr "a")); ("v", JLeaf (SNum 1))].

Definition record_b : json :=
  JMap [("uuid", JLeaf (SStr "b")); ("v", JLeaf (SNum 2))].

(** [CREATE TABLE IF NOT EXISTS] on the relation. *)
Definition ensured (db : option table) : option table :=
  match db with None => Some [] | Some t => Some t end.

(** ** The batch loop of [load_truncate], step by step *)

(** [flat = flatten_json(rec); row = {col: flat.get(col) for col in columns}] *)
Definition project_row (columns : list string) (rec : json) : Row :=
  project (flatten_json rec "" "_") columns.

(** Body of the [for rec in ...] loop of [load_truncate]. *)
Definition truncate_step (cfg : config) (columns : list string)
  (batch : list Row) (rec : json) : M (list Row) :=
  let flat := flatten_json rec "" "_" in
  let row := project flat columns in
  let batch := batch ++ [row] in
  if batch_full cfg batch then
    cur_executemany (insert_sql cfg columns) batch ;;
    conn_commit ;;
    ret []
  else ret batch.

(** What the loop does to the batch alone: the batches flushed while
    streaming, and the batch left at the end. *)
Fixpoint chunk_rows (full : list Row -> bool) (batch : list Row)
  (rows : list Row) : list (list Row) * list Row :=
  match rows with
  | [] => ([], batch)
  | row :: rest =>
      let batch := batch ++ [row] in
      if full batch then
        (batch :: fst (chunk_rows full [] rest),
         snd (chunk_rows full [] rest))
      else chunk_rows full batch rest
  end.

(** The calls a flushed batch leaves behind. *)
Definition flush_calls (st : statement) (ws : list (list Row)) : list call :=
  flat_map (fun b => [ExecuteMany st b; Commit]) ws.

(** The final [if batch:] flush. *)
Definition final_flush (batch : list Row) : list (list Row) :=
  match batch with
  | [] => []
  | _ :: _ => [batch]
  end.

(** Body of the [for rec in scan_dynamodb()] loop of [load_upsert]. *)
Definition upsert_step (cfg : config) (columns : list string)
  (_ : unit) (rec : json) : M unit :=
  let flat := flatten_json rec "" "_" in
  let row := project flat columns in
  cur_execute (MergeInto (merge_sql cfg columns)) row.

(** A relation that already holds a row before the load. *)
Definition old_row : Row := [("uuid", SStr "old"); ("v", SNum 0)].

Definition world_with_old_row : world :=
  {| snow_table := Some [old_row]; calls := []; warnings := [] |}.

(** The rows of a relation, none when it does not exist. *)
Definition rows_of (db : option table) : table :=
  match db with None => [] | Some t => t end.

(** The rows [load_truncate] runs through its batch loop:
    [[first_rec] + list(scan_dynamodb())], projected. *)
Definition truncate_rows (scan_dynamodb : list json) : list Row :=
  match scan_dynamodb with
  | [] => []
  | first_rec :: _ =>
      map (project_row (infer_columns first_rec))
        ([first_rec] ++ scan_dynamodb)
  end.

Definition cfg_batch_of_two : config :=
  {| DDB_TABLE := "items"; SNOW_DATABASE := "DB"; SNOW_SCHEMA := "PUBLIC";
     SNOW_TABLE := "ITEMS"; BATCH_SIZE := 2 |}.

Definition row_a : Row := [("uuid", SStr "a"); ("v", SNum 1)].

(** ** The upsert loop on the relation alone *)

(** One merge per row, in order. *)
Definition merge_all (m : merge_stmt) (rows : list Row) (t : table) : table :=
  fold_left (fun t s_row => merge_rows m s_row t) rows t.

(** What a run of merges that insert nothing does to one stored row. *)
Definition update_all (m : merge_stmt) (rows : list Row) (r : Row) : Row :=
  fold_left (fun r s_row => update_matched m s_row r) rows r.

(** A parameter row the merge can use as it stands: it is the row the
    insert branch would store, it has every column the update branch sets,
    and its key is not NULL (it matches itself). *)
Definition good_row (m : merge_stmt) (s_row : Row) : Prop :=
  inserted_row m s_row = s_row
  /\ incl (merge_update m) (Dict.keys s_row)
  /\ merge_matches m s_row s_row = true.

(** The record carries its key: the flat record has a [uuid] that is not
    null. *)
Definition carries_key (rec : json) : bool :=
  match Dict.lookup (flatten_json rec "" "_") "uuid" with
  | Some SNone => false
  | Some _ => true
  | None => false
  end.

(** The rows [load_upsert] merges: one per scanned record. *)
Definition upsert_rows (scan_dynamodb : list json) : list Row :=
  match scan_dynamodb with
  | [] => []
  | first_rec :: _ =>
      map (project_row (infer_columns first_rec)) scan_dynamodb
  end.

(** A record whose key is null. *)
Definition record_null_key : json :=
  JMap [("uuid", JLeaf SNone); ("v", JLeaf (SNum 1))].

(** ** Leaves and their paths *)

(** The FlatKey the flattener reaches from [prefix] along [path]: one
    [new_key] per segment. *)
Fixpoint extend (prefix sep : string) (path : list string) : string :=
  match path with
  | [] => prefix
  | seg :: rest => extend (new_key prefix sep seg) sep rest
  end.

Definition prepend (seg : string) (pv : list string * scalar)
  : list string * scalar :=
  (seg :: fst pv, snd pv).

(** Paths of the elements of a list, the first element at index [idx]. *)
Fixpoint index_paths (idx : nat) (pss : list (list (list string * scalar)))
  : list (list string * scalar) :=
  match pss with
  | [] => []
  | ps :: rest => map (prepend (str_of_nat idx)) ps ++ index_paths (S idx) rest
  end.

(** Every leaf of a record with the path that leads to it (mapping keys and
    list indices), in the order the flattener visits them. *)
Fixpoint paths (data : json) : list (list string * scalar) :=
  match data with
  | JLeaf x => [([], x)]
  | JList vs => index_paths 0 (map paths vs)
  | JMap kvs =>
      flat_map (fun kv => map (prepend (fst kv)) (paths (snd kv))) kvs
  end.

(** One entry per leaf: its key from the path, its value. *)
Definition flat_entries (prefix sep : string) (data : json)
  : Dict.t scalar :=
  map (fun pv => (extend prefix sep (fst pv), snd pv)) (paths data).

Definition entries_sound_at (sep : string) (data : json) : Prop :=
  forall q e, In e (flatten_json data q sep) -> In e (flat_entries q sep data).

Definition keys_complete_at (sep : string) (data : json) : Prop :=
  forall q,
    incl (Dict.keys (flat_entries q sep data))
      (Dict.keys (flatten_json data q sep)).

Definition entries_exact_at (c : ascii) (data : json) : Prop :=
  forall q, flatten_json data q (String c "") = flat_entries q (String c "") data.

(** A mapping whose values are all scalars, from its entries. *)
Definition flat_mapping (d : Dict.t scalar) : json :=
  JMap (map (fun kv => (fst kv, JLeaf (snd kv))) d).

(** [[("0", x0); ("1", x1); ...]] *)
Definition indexed (idx : nat) (xs : list scalar) : Dict.t scalar :=
  combine (map str_of_nat (seq idx (List.length xs))) xs.

(** The order [sorted] puts strings in. *)
Definition le_str (a b : string) : Prop := String.leb a b = true.

Definition cfg_batch_of_zero : config :=
  {| DDB_TABLE := "items"; SNOW_DATABASE := "DB"; SNOW_SCHEMA := "PUBLIC";
     SNOW_TABLE := "ITEMS"; BATCH_SIZE := 0 |}.

Definition row_b : Row := [("uuid", SStr "b"); ("v", SNum 2)].

(** The key value of a record as the loader binds it: [flat.get("uuid")]. *)
Definition key_of (rec : json) : scalar :=
  dict_get (flatten_json rec "" "_") "uuid".

(** The row a merge adds when nothing matches, if any. *)
Definition inserted_if_new (m : merge_stmt) (s_row : Row) (t : table)
  : table :=
  if existsb (merge_matches m s_row) t then [] else [inserted_row m s_row].

Definition upsert_response : response :=
  {| statusCode := 200; body := "Upsert succeeded" |}.

(** The merge calls of an upsert, one per record. *)
Definition merge_calls (cfg : config) (columns : list string)
  (recs : list json) : list call :=
  map (fun rec => Execute (MergeInto (merge_sql cfg columns))
                    (project_row columns rec)) recs.

(** ** load_to_dynamodb.py

    The seeding script.  [file] is the object [json.load] returned; the
    effects kept are the items handed to [writer.put_item], in call order,
    and the lines printed.  What the batch writer sends to DynamoDB when it
    flushes is outside. *)
Module LoadToDynamodb.

Definition TABLE_NAME : string := "DevNestedTable".

Inductive pyerror : Type :=
| AttributeError
| KeyError (key : string)
| TypeError.

Inductive result (A : Type) : Type :=
| Ok (a : A)
| Err (e : pyerror).
Arguments Ok {A} a.
Arguments Err {A} e.

Fixpoint assoc (kvs : list (string * json)) (key : string) : option json :=
  match kvs with
  | [] => None
  | (k, v) :: rest => if String.eqb k key then Some v else assoc rest key
  end.

(** [obj.get(key, default)]: only a [dict] has the method. *)
Definition get_default (obj : json) (key : string) (default : json)
  : result json :=
  match obj with
  | JMap kvs =>
      Ok (match assoc kvs key with Some v => v | None => default end)
  | _ => Err AttributeError
  end.

(** [obj[key]] with a [str] key: a [dict] gives the value or [KeyError];
    a list, a string or any other value gives [TypeError]. *)
Definition subscript (obj : json) (key : string) : result json :=
  match obj with
  | JMap kvs =>
      match assoc kvs key with
      | Some v => Ok v
      | None => Err (KeyError key)
      end
  | _ => Err TypeError
  end.

Definition chars (s : string) : list json :=
  map (fun c => JLeaf (SStr (String c EmptyString))) (list_ascii_of_string s).

(** What [for req in obj] runs through: the elements of a list, the keys of
    a [dict], the characters of a string; anything else is not iterable. *)
Definition iterate (obj : json) : result (list json) :=
  match obj with
  | JList vs => Ok vs
  | JMap kvs => Ok (map (fun kv => JLeaf (SStr (fst kv))) kvs)
  | JLeaf (SStr s) => Ok (chars s)
  | JLeaf _ => Err TypeError
  end.

(** [len(obj)] *)
Definition len (obj : json) : result nat :=
  match obj with
  | JList vs => Ok (List.length vs)
  | JMap kvs => Ok (List.length kvs)
  | JLeaf (SStr s) => Ok (String.length s)
  | JLeaf _ => Err TypeError
  end.

(** [req["PutRequest"]["Item"]] *)
Definition item_of (req : json) : result json :=
  match subscript req "PutRequest" with
  | Ok put_request => subscript put_request "Item"
  | Err e => Err e
  end.

(** The loop over [batch_req]; [puts] are the items handed over so far. *)
Fixpoint put_all (reqs : list json) (puts : list json)
  : result unit * list json :=
  match reqs with
  | [] => (Ok tt, puts)
  | req :: rest =>
      match item_of req with
      | Ok item => put_all rest (puts ++ [item])
      | Err e => (Err e, puts)
      end
  end.

(** [f"Loaded {len(batch_req)} items into {TABLE_NAME}"] *)
Definition loaded_message (n : nat) : string :=
  "Loaded " ++ str_of_nat n ++ " items into " ++ TABLE_NAME.

(** [main]: the outcome, the items put and the lines printed. *)
Definition main (file : json) : result unit * (list json * list string) :=
  match get_default file TABLE_NAME (JList []) with
  | Err e => (Err e, ([], []))
  | Ok batch_req =>
      match iterate batch_req with
      | Err e => (Err e, ([], []))
      | Ok reqs =>
          match put_all reqs [] with
          | (Err e, puts) => (Err e, (puts, []))
          | (Ok _, puts) =>
              match len batch_req with
              | Ok n => (Ok tt, (puts, [loaded_message n]))
              | Err e => (Err e, (puts, []))
              end
          end
      end
  end.

(** A request as the export format has it. *)
Definition put_request (item : json) : json :=
  JMap [("PutRequest", JMap [("Item", item)])].

End LoadToDynamodb.

Definition truncate_response : response :=
  {| statusCode := 200; body := "Full load succeeded" |}.

(** Rows that have the key of [s_row] hold its values in the columns the
    merge overwrites. *)
Definition holds_values (m : merge_stmt) (s_row : Row) (t : table) : Prop :=
  forall row, In row t -> merge_matches m s_row row = true ->
    forall c, In c (merge_update m) -> dict_get row c = dict_get s_row c.

(** A later record with the key of [record_a]. *)
Definition record_a_again : json :=
  JMap [("uuid", JLeaf (SStr "a")); ("v", JLeaf (SNum 9))].

(** * Worked examples from the docstrings *)

Example flatten_doc_1 :
  flatten_json (JMap [("a", JMap [("b", JLeaf (SNum 1))])]) "" "_"
  = [("a_b", SNum 1)].
Proof. reflexivity. Qed.

Example flatten_doc_2 :
  flatten_json (JMap [("x", JList [JMap [("y", JLeaf (SNum 2))]])]) "" "_"
  = [("x_0_y", SNum 2)].
Proof. reflexivity. Qed.

Example infer_columns_doc :
  infer_columns
    (JMap [("b", JMap [("c", JLeaf (SNum 2))]); ("a", JLeaf (SNum 1))])
  = ["a"; "b_c"].
Proof. reflexivity. Qed.

Example insert_sql_text :
  sql_text (insert_sql cfg_example ["name"; "uuid"])
  = "INSERT INTO DB.PUBLIC.ITEMS (name, uuid) VALUES (%(name)s, %(uuid)s)".
Proof. reflexivity. Qed.

Example merge_sql_text :
  sql_text (MergeInto (merge_sql cfg_example ["name"; "uuid"]))
  = "MERGE INTO DB.PUBLIC.ITEMS T USING (SELECT %(name)s AS name, %(uuid)s AS uuid) S ON T.uuid = S.uuid WHEN MATCHED THEN UPDATE SET T.name=S.name WHEN NOT MATCHED THEN INSERT (name, uuid) VALUES (S.name, S.uuid)".
Proof. reflexivity. Qed.

(** * Facts about dictionaries *)

Section DictFacts.
Context {V : Type}.
Implicit Types (d o : Dict.t V) (k : string) (v : V).

Lemma lookup_notin d k : ~ In k (Dict.keys d) -> Dict.lookup d k = None.
Proof.
  induction d as [|[k' v'] r IH]; simpl; intros Hn; [reflexivity|].
  destruct (String.eqb_spec k' k) as [->|Hne].
  - exfalso. apply Hn. now left.
  - apply IH. intros Hin. apply Hn. now right.
Qed.

Lemma lookup_in d k : In k (Dict.keys d) -> exists v, Dict.lookup d k = Some v.
Proof.
  induction d as [|[k' v'] r IH]; simpl; intros Hin; [contradiction|].
  destruct (String.eqb_spec k' k) as [->|Hne]; [eauto|].
  destruct Hin as [->|Hin]; [congruence|auto].
Qed.

Lemma setitem_notin d k v :
  ~ In k (Dict.keys d) -> Dict.setitem d k v = d ++ [(k, v)].
Proof.
  induction d as [|[k' v'] r IH]; simpl; intros Hn; [reflexivity|].
  destruct (String.eqb_spec k' k) as [->|Hne].
  - exfalso. apply Hn. now left.
  - f_equal. apply IH. intros Hin. apply Hn. now right.
Qed.

Lemma keys_setitem_in d k v :
  In k (Dict.keys d) -> Dict.keys (Dict.setitem d k v) = Dict.keys d.
Proof.
  induction d as [|[k' v'] r IH]; simpl; intros Hin; [contradiction|].
  destruct (String.eqb_spec k' k) as [->|Hne]; simpl; [reflexivity|].
  f_equal. apply IH. destruct Hin; [congruence|assumption].
Qed.

Lemma length_setitem_in d k v :
  In k (Dict.keys d) -> List.length (Dict.setitem d k v) = List.length d.
Proof.
  intros Hin. pose proof (keys_setitem_in d k v Hin) as E.
  unfold Dict.keys in E.
  now rewrite <- (length_map fst), E, length_map.
Qed.

Lemma length_setitem_le d k v :
  List.length (Dict.setitem d k v) <= S (List.length d).
Proof.
  induction d as [|[k' v'] r IH]; simpl; [lia|].
  destruct (String.eqb k' k); simpl; lia.
Qed.

Lemma keys_setitem d k v x :
  In x (Dict.keys (Dict.setitem d k v)) <-> In x (Dict.keys d) \/ x = k.
Proof.
  induction d as [|[k' v'] r IH]; simpl.
  - intuition.
  - destruct (String.eqb_spec k' k) as [->|Hne]; simpl.
    + intuition.
    + rewrite IH. intuition.
Qed.

Lemma NoDup_keys_setitem d k v :
  NoDup (Dict.keys d) -> NoDup (Dict.keys (Dict.setitem d k v)).
Proof.
  induction d as [|[k' v'] r IH]; simpl; intros Hnd.
  - constructor; [intros []|constructor].
  - inversion Hnd as [|? ? Hn Hr]; subst.
    destruct (String.eqb_spec k' k) as [->|Hne]; simpl.
    + now constructor.
    + constructor; [|auto].
      rewrite keys_setitem. intros [Hin| ->]; [auto|congruence].
Qed.

Lemma length_update_le d o :
  List.length (Dict.update d o) <= List.length d + List.length o.
Proof.
  unfold Dict.update. revert d.
  induction o as [|[k v] r IH]; simpl; intros d; [lia|].
  specialize (IH (Dict.setitem d k v)).
  pose proof (length_setitem_le d k v). lia.
Qed.

Lemma keys_update d o x :
  In x (Dict.keys (Dict.update d o))
  <-> In x (Dict.keys d) \/ In x (Dict.keys o).
Proof.
  unfold Dict.update. revert d.
  induction o as [|[k v] r IH]; simpl; intros d; [intuition|].
  rewrite IH, keys_setitem. intuition.
Qed.

Lemma NoDup_keys_update d o :
  NoDup (Dict.keys d) -> NoDup (Dict.keys (Dict.update d o)).
Proof.
  unfold Dict.update. revert d.
  induction o as [|[k v] r IH]; simpl; intros d Hnd; [assumption|].
  apply IH. now apply NoDup_keys_setitem.
Qed.

(** Updating with entries under fresh, pairwise distinct keys appends
    them. *)
Lemma update_disjoint d o :
  NoDup (Dict.keys o) ->
  (forall x, In x (Dict.keys o) -> ~ In x (Dict.keys d)) ->
  Dict.update d o = d ++ o.
Proof.
  unfold Dict.update. revert d.
  induction o as [|[k v] r IH]; simpl; intros d Hnd Hdis.
  - now rewrite app_nil_r.
  - inversion Hnd as [|? ? Hn Hr]; subst.
    rewrite setitem_notin by (apply Hdis; now left).
    rewrite IH; [now rewrite <- app_assoc| assumption |].
    intros x Hx. unfold Dict.keys. rewrite map_app, in_app_iff. simpl.
    intros [Hin|[<-|[]]]; [|contradiction].
    apply (Hdis x); [now right|assumption].
Qed.

Lemma setitem_same d k v :
  Dict.lookup d k = Some v -> Dict.setitem d k v = d.
Proof.
  induction d as [|[k' v'] r IH]; simpl; [discriminate|].
  destruct (String.eqb_spec k' k) as [->|Hne]; intros E.
  - congruence.
  - f_equal. auto.
Qed.

End DictFacts.

Lemma lookup_map_in (g : string -> scalar) (l : list string) (c : string) :
  In c l -> Dict.lookup (map (fun c => (c, g c)) l) c = Some (g c).
Proof.
  induction l as [|a r IH]; simpl; intros Hin; [contradiction|].
  destruct (String.eqb_spec a c) as [->|Hne]; [reflexivity|].
  destruct Hin; [congruence|auto].
Qed.

Lemma keys_map_pair {V} (g : string -> V) (l : list string) :
  Dict.keys (map (fun c => (c, g c)) l) = l.
Proof.
  unfold Dict.keys. rewrite map_map. simpl. apply map_id.
Qed.

(** * The flattener *)

(** C10: at the root (empty prefix) a bare scalar or null flattens to the
    single entry whose key is the empty string, so a top-level scalar record
    gives the empty FlatKey as its only column; no error is raised. *)
Theorem flatten_root_scalar (x : scalar) (sep : string) :
  flatten_json (JLeaf x) "" sep = [("", x)]
  /\ Dict.keys (flatten_json (JLeaf x) "" sep) = [""]
  /\ infer_columns (JLeaf x) = [""].
Proof. repeat split. Qed.

(** ** The flattener on the object store *)

Example flatten_on_store :
  match ObjectStore.flatten_json 4 (ObjectStore.VRef 2) "" "_" store_x0y with
  | Some (items, h') => nth_error h' items
  | None => None
  end
  = Some (ObjectStore.ODict [("x_0_y", ObjectStore.VScalar (SNum 2))]).
Proof. reflexivity. Qed.

Example flatten_recursion_limit :
  ObjectStore.flatten_json 3 (ObjectStore.VRef 2) "" "_" store_x0y = None.
Proof. reflexivity. Qed.

Lemma nth_error_old (h g : ObjectStore.store) l o :
  nth_error h l = Some o -> nth_error (h ++ g) l = Some o.
Proof.
  intros H. rewrite nth_error_app1; [exact H|].
  apply nth_error_Some. congruence.
Qed.

Lemma nth_error_new (h g : ObjectStore.store) o :
  nth_error (h ++ o :: g) (List.length h) = Some o.
Proof. induction h as [|x h IH]; simpl; [reflexivity|exact IH]. Qed.

Lemma write_new (h g : ObjectStore.store) o o' :
  ObjectStore.write (h ++ o :: g) (List.length h) o' = h ++ o' :: g.
Proof. induction h as [|x h IH]; simpl; [reflexivity|now rewrite IH]. Qed.

Lemma represents_extends r : forall h g v,
  ObjectStore.represents h v r -> ObjectStore.represents (h ++ g) v r.
Proof.
  induction r as [x|js IH|kvs IH] using json_ind; intros h g v H.
  - inversion H; subst. constructor.
  - inversion H as [|l vs js' Hl Hvs|]; subst.
    apply ObjectStore.represents_list with (vs := vs);
      [now apply nth_error_old|].
    clear Hl H. induction Hvs as [|v j vs js Hv _ IHvs]; constructor.
    + apply Forall_inv in IH. now apply IH.
    + apply IHvs. now apply Forall_inv_tail in IH.
  - inversion H as [| |l d kvs' Hl Hd]; subst.
    apply ObjectStore.represents_map with (d := d);
      [now apply nth_error_old|].
    clear Hl H. induction Hd as [|e kv d kvs [He Hv] _ IHd]; constructor.
    + split; [exact He|]. apply Forall_inv in IH. now apply IH.
    + apply IHd. now apply Forall_inv_tail in IH.
Qed.

Lemma flat_entries_setitem (f : Dict.t scalar) k x :
  map (fun kv => (fst kv, ObjectStore.VScalar (snd kv))) (Dict.setitem f k x)
  = Dict.setitem (map (fun kv => (fst kv, ObjectStore.VScalar (snd kv))) f)
      k (ObjectStore.VScalar x).
Proof.
  induction f as [|[k' x'] f IH]; simpl; [reflexivity|].
  destruct (String.eqb k' k); simpl; [reflexivity|now rewrite IH].
Qed.

Lemma flat_entries_update (g : Dict.t scalar) : forall f,
  map (fun kv => (fst kv, ObjectStore.VScalar (snd kv))) (Dict.update f g)
  = Dict.update (map (fun kv => (fst kv, ObjectStore.VScalar (snd kv))) f)
      (map (fun kv => (fst kv, ObjectStore.VScalar (snd kv))) g).
Proof.
  unfold Dict.update.
  induction g as [|[k x] g IH]; intros f; simpl; [reflexivity|].
  now rewrite IH, flat_entries_setitem.
Qed.

Lemma step_at_run r fuel sep h acc g v nk :
  runs_at r fuel ->
  ObjectStore.represents h v r ->
  exists g',
    step_at fuel sep (List.length h) v nk
      (h ++ ObjectStore.flat_object acc :: g)
    = Some (h ++ ObjectStore.flat_object
                   (Dict.update acc (flatten_json r nk sep)) :: g').
Proof.
  intros Hrun Hv. unfold step_at.
  destruct (Hrun (h ++ ObjectStore.flat_object acc :: g) v nk sep
              (represents_extends r h _ v Hv)) as [g1 E].
  rewrite E. unfold ObjectStore.dict_update.
  rewrite nth_error_new.
  rewrite <- app_assoc. simpl.
  rewrite nth_error_new.
  unfold ObjectStore.flat_object.
  rewrite write_new, flat_entries_update.
  eexists. reflexivity.
Qed.

Lemma map_loop_run fuel parent_key sep h d kvs :
  Forall2 (fun e kv => fst e = fst kv
                       /\ ObjectStore.represents h (snd e) (snd kv)) d kvs ->
  Forall (fun kv => runs_at (snd kv) fuel) kvs ->
  forall acc g, exists g',
    ObjectStore.for_each
      (fun kv => step_at fuel sep (List.length h) (snd kv)
                   (new_key parent_key sep (fst kv)))
      d (h ++ ObjectStore.flat_object acc :: g)
    = Some (h ++ ObjectStore.flat_object
                   (fold_left
                      (fun items kv =>
                         Dict.update items
                           (flatten_json (snd kv)
                              (new_key parent_key sep (fst kv)) sep))
                      kvs acc) :: g').
Proof.
  induction 1 as [|e kv d kvs [He Hv] _ IH]; intros Hrun acc g; simpl.
  - eexists. reflexivity.
  - destruct (step_at_run (snd kv) fuel sep h acc g (snd e)
                (new_key parent_key sep (fst e))
                (Forall_inv Hrun) Hv) as [g1 E].
    rewrite E, He. apply IH. exact (Forall_inv_tail Hrun).
Qed.

Lemma list_loop_run fuel parent_key sep h vs js :
  Forall2 (ObjectStore.represents h) vs js ->
  Forall (fun j => runs_at j fuel) js ->
  forall idx acc g, exists g',
    ObjectStore.for_each
      (fun iv => step_at fuel sep (List.length h) (snd iv)
                   (new_key parent_key sep (str_of_nat (fst iv))))
      (combine (seq idx (List.length vs)) vs)
      (h ++ ObjectStore.flat_object acc :: g)
    = Some (h ++ ObjectStore.flat_object
                   (snd (fold_left
                           (fun st value =>
                              (S (fst st),
                               Dict.update (snd st)
                                 (flatten_json value
                                    (new_key parent_key sep
                                       (str_of_nat (fst st))) sep)))
                           js (idx, acc))) :: g').
Proof.
  induction 1 as [|v j vs js Hv _ IH]; intros Hrun idx acc g; simpl.
  - eexists. reflexivity.
  - destruct (step_at_run j fuel sep h acc g v
                (new_key parent_key sep (str_of_nat idx))
                (Forall_inv Hrun) Hv) as [g1 E].
    rewrite E. apply IH. exact (Forall_inv_tail Hrun).
Qed.

Lemma depth_children (ds : list nat) fuel :
  list_max ds < fuel -> Forall (fun k => k < fuel) ds.
Proof.
  intros H. apply Forall_forall. intros k Hk.
  pose proof (proj1 (list_max_le ds (list_max ds)) (le_n _)) as Hle.
  rewrite Forall_forall in Hle. specialize (Hle k Hk). lia.
Qed.

(** The call on the store computes [flatten_json]: with a recursion budget
    above the nesting depth it returns a new dictionary with the entries of
    the flat record, in order, and leaves every earlier object as it was. *)
Lemma flatten_store_run r : forall fuel, depth r < fuel -> runs_at r fuel.
Proof.
  induction r as [x|js IH|kvs IH] using json_ind;
    intros [|fuel] Hfuel; try lia; intros h v p sep Hv.
  - inversion Hv; subst. simpl.
    unfold ObjectStore.dict_setitem.
    rewrite (nth_error_new h []). simpl.
    rewrite (write_new h []). eexists. reflexivity.
  - inversion Hv as [|l vs js' Hl Hvs|]; subst.
    cbn [ObjectStore.flatten_json ObjectStore.new_dict].
    rewrite (nth_error_old h _ l _ Hl).
    destruct (list_loop_run fuel p sep h vs js Hvs) with (idx := 0)
      (acc := @nil (string * scalar)) (g := @nil ObjectStore.object)
      as [g' E].
    { simpl in Hfuel. apply Nat.succ_lt_mono in Hfuel.
      apply depth_children in Hfuel. rewrite Forall_map in Hfuel.
      rewrite Forall_forall in IH, Hfuel |- *.
      intros j Hj. apply IH; [exact Hj|]. now apply Hfuel. }
    unfold ObjectStore.enumerate.
    change (h ++ [ObjectStore.ODict []])
      with (h ++ ObjectStore.flat_object [] :: []).
    unfold step_at in E. rewrite E. simpl. eexists. reflexivity.
  - inversion Hv as [| |l d kvs' Hl Hd]; subst.
    cbn [ObjectStore.flatten_json ObjectStore.new_dict].
    rewrite (nth_error_old h _ l _ Hl).
    destruct (map_loop_run fuel p sep h d kvs Hd) with
      (acc := @nil (string * scalar)) (g := @nil ObjectStore.object)
      as [g' E].
    { simpl in Hfuel. apply Nat.succ_lt_mono in Hfuel.
      apply depth_children in Hfuel. rewrite Forall_map in Hfuel.
      rewrite Forall_forall in IH, Hfuel |- *.
      intros kv Hkv. apply IH; [exact Hkv|]. now apply Hfuel. }
    change (h ++ [ObjectStore.ODict []])
      with (h ++ ObjectStore.flat_object [] :: []).
    unfold step_at in E. rewrite E. simpl. eexists. reflexivity.
Qed.

Lemma write_beyond (h g : ObjectStore.store) k o :
  ObjectStore.write (h ++ g) (List.length h + k) o
  = h ++ ObjectStore.write g k o.
Proof. induction h as [|x h IH]; simpl; [reflexivity|now rewrite IH]. Qed.

Lemma dict_update_keeps (h g : ObjectStore.store) sub h' :
  ObjectStore.dict_update (List.length h) sub (h ++ g) = Some h' ->
  exists g', h' = h ++ g'.
Proof.
  unfold ObjectStore.dict_update. intros H.
  destruct (nth_error (h ++ g) (List.length h)) as [[d|]|];
    try discriminate.
  destruct (nth_error (h ++ g) sub) as [[d'|]|]; try discriminate.
  injection H as <-.
  rewrite <- (Nat.add_0_r (List.length h)), write_beyond.
  eexists. reflexivity.
Qed.

Lemma for_each_keeps {A : Type} (h : ObjectStore.store)
  (body : A -> ObjectStore.store -> option ObjectStore.store) (xs : list A) :
  (forall x g h', body x (h ++ g) = Some h' -> exists g', h' = h ++ g') ->
  forall g h',
    ObjectStore.for_each body xs (h ++ g) = Some h' ->
    exists g', h' = h ++ g'.
Proof.
  intros Hbody. induction xs as [|x xs IH]; simpl; intros g h' H.
  - injection H as <-. eexists. reflexivity.
  - destruct (body x (h ++ g)) as [h1|] eqn:E; [|discriminate].
    destruct (Hbody _ _ _ E) as [g1 ->]. exact (IH _ _ H).
Qed.

(** Whatever the store holds, a call that returns has only added objects:
    its result is a new object and every object that was there is as it
    was. *)
Lemma flatten_store_only_allocates fuel : forall data parent_key sep h a h',
  ObjectStore.flatten_json fuel data parent_key sep h = Some (a, h') ->
  a = List.length h /\ exists g, h' = h ++ g.
Proof.
  induction fuel as [|fuel IH]; intros data p sep h a h' H; [discriminate|].
  cbn [ObjectStore.flatten_json ObjectStore.new_dict] in H.
  assert (Hstep : forall value nk g h1,
             step_at fuel sep (List.length h) value nk (h ++ g) = Some h1 ->
             exists g1, h1 = h ++ g1).
  { intros value nk g h1 Hs. unfold step_at in Hs.
    destruct (ObjectStore.flatten_json fuel value nk sep (h ++ g))
      as [[sub h2]|] eqn:E; [|discriminate].
    destruct (IH _ _ _ _ _ _ E) as [_ [g2 ->]].
    rewrite <- app_assoc in Hs. exact (dict_update_keeps _ _ _ _ Hs). }
  destruct data as [x|l].
  - unfold ObjectStore.dict_setitem in H.
    rewrite (nth_error_new h []) in H. simpl in H.
    rewrite (write_new h []) in H. injection H as <- <-.
    split; [reflexivity|]. eexists. reflexivity.
  - destruct (nth_error (h ++ [ObjectStore.ODict []]) l) as [[d|vs]|];
      [| |discriminate].
    + match type of H with
      | option_map _ ?m = _ => destruct m as [h1|] eqn:E; [|discriminate]
      end.
      injection H as <- <-. split; [reflexivity|].
      refine (for_each_keeps h _ d _ _ _ E).
      intros kv g h2. apply Hstep.
    + match type of H with
      | option_map _ ?m = _ => destruct m as [h1|] eqn:E; [|discriminate]
      end.
      injection H as <- <-. split; [reflexivity|].
      refine (for_each_keeps h _ _ _ _ _ E).
      intros iv g h2. apply Hstep.
Qed.

(** C9: flattening is deterministic.  Two evaluations of [flatten_json] with
    the same prefix and separator, on objects that are the same record,
    whatever else the two stores hold and wherever the objects live in them,
    both return, and the two dictionaries they return have the same entries:
    same keys, same values, same order, namely the entries of the flat
    record of the pure [flatten_json].  Each evaluation leaves its argument
    the record it was, so the second evaluation may start where the first
    ended. *)
Theorem flatten_deterministic (r : json) (prefix sep : string)
  (h1 h2 : ObjectStore.store) (v1 v2 : ObjectStore.value)
  (fuel1 fuel2 : nat) :
  ObjectStore.represents h1 v1 r ->
  ObjectStore.represents h2 v2 r ->
  depth r < fuel1 ->
  depth r < fuel2 ->
  exists items1 h1' items2 h2' f,
    ObjectStore.flatten_json fuel1 v1 prefix sep h1 = Some (items1, h1')
    /\ ObjectStore.flatten_json fuel2 v2 prefix sep h2 = Some (items2, h2')
    /\ nth_error h1' items1 = Some (ObjectStore.ODict f)
    /\ nth_error h2' items2 = Some (ObjectStore.ODict f)
    /\ ObjectStore.ODict f
       = ObjectStore.flat_object (flatten_json r prefix sep)
    /\ ObjectStore.represents h1' v1 r
    /\ ObjectStore.represents h2' v2 r.
Proof.
  intros R1 R2 F1 F2.
  destruct (flatten_store_run r fuel1 F1 h1 v1 prefix sep R1) as [g1 E1].
  destruct (flatten_store_run r fuel2 F2 h2 v2 prefix sep R2) as [g2 E2].
  do 5 eexists. split; [exact E1|]. split; [exact E2|].
  split; [apply nth_error_new|]. split; [apply nth_error_new|].
  split; [reflexivity|].
  split; now apply represents_extends.
Qed.

Lemma flatten_deterministic_witness :
  exists items1 h1' items2 h2' f,
    ObjectStore.flatten_json 4 (ObjectStore.VRef 2) "" "_" store_x0y
    = Some (items1, h1')
    /\ ObjectStore.flatten_json 4 (ObjectStore.VRef 2) "" "_" store_after_call
       = Some (items2, h2')
    /\ nth_error h1' items1 = Some (ObjectStore.ODict f)
    /\ nth_error h2' items2 = Some (ObjectStore.ODict f)
    /\ ObjectStore.ODict f
       = ObjectStore.flat_object (flatten_json record_x0y "" "_")
    /\ ObjectStore.represents h1' (ObjectStore.VRef 2) record_x0y
    /\ ObjectStore.represents h2' (ObjectStore.VRef 2) record_x0y.
Proof.
  apply (flatten_deterministic record_x0y "" "_" store_x0y store_after_call
           (ObjectStore.VRef 2) (ObjectStore.VRef 2) 4 4).
  - repeat (econstructor; try reflexivity).
  - repeat (econstructor; try reflexivity).
  - vm_compute. lia.
  - vm_compute. lia.
Defined.

(** * The row projector *)

Lemma project_acc flat columns : forall acc : Row,
  NoDup columns ->
  (forall c, In c columns -> ~ In c (Dict.keys acc)) ->
  fold_left (fun row col => Dict.setitem row col (dict_get flat col))
    columns acc
  = acc ++ map (fun c => (c, dict_get flat c)) columns.
Proof.
  induction columns as [|c r IH]; simpl; intros acc Hnd Hfresh.
  - now rewrite app_nil_r.
  - inversion Hnd as [|? ? Hn Hr]; subst.
    rewrite setitem_notin by (apply Hfresh; now left).
    rewrite IH; [now rewrite <- app_assoc|assumption|].
    intros x Hx. unfold Dict.keys. rewrite map_app, in_app_iff. simpl.
    intros [Hin|[<-|[]]]; [|contradiction].
    apply (Hfresh x); [now right|assumption].
Qed.

Lemma project_map flat columns :
  NoDup columns ->
  project flat columns = map (fun c => (c, dict_get flat c)) columns.
Proof.
  intros Hnd. unfold project. now rewrite project_acc.
Qed.

(** C7: for a ColumnSet [C] (no column twice) and any FlatRecord [f], the
    row [project f C] has exactly the columns of [C], in [C]'s order; each
    holds [f]'s value when [f] has that key and null otherwise; a key outside
    [C] is not in the row. *)
Theorem project_total_coverage (f : Dict.t scalar) (C : list string) :
  NoDup C ->
  Dict.keys (project f C) = C
  /\ (forall c, In c C ->
        Dict.lookup (project f C) c
        = Some (match Dict.lookup f c with Some v => v | None => SNone end))
  /\ (forall k, ~ In k C -> Dict.lookup (project f C) k = None).
Proof.
  intros Hnd. rewrite (project_map f C Hnd). repeat split.
  - apply keys_map_pair.
  - intros c Hc. now rewrite lookup_map_in.
  - intros k Hk. apply lookup_notin. now rewrite keys_map_pair.
Qed.

Lemma project_total_coverage_witness :
  Dict.keys (project [("b", SNum 2); ("zz", SBool true)] ["a"; "b"])
  = ["a"; "b"].
Proof.
  apply (project_total_coverage
           [("b", SNum 2); ("zz", SBool true)] ["a"; "b"]).
  repeat constructor; simpl; intuition discriminate.
Defined.

(** * Leaf counting *)

(** ** Strings *)

Lemma append_assoc (a b c : string) :
  ((a ++ b) ++ c = a ++ (b ++ c))%string.
Proof. induction a as [|x a IH]; simpl; [reflexivity|now rewrite IH]. Qed.

Lemma append_cancel_l (a b c : string) :
  (a ++ b = a ++ c)%string -> b = c.
Proof.
  induction a as [|x a IH]; simpl; intros E; [assumption|].
  injection E as E. auto.
Qed.

Lemma truthy_nonempty (s : string) : truthy s = true <-> s <> "".
Proof. destruct s; simpl; split; congruence. Qed.

Lemma append_nonempty_l (a b : string) : a <> "" -> (a ++ b)%string <> "".
Proof. destruct a; simpl; congruence. Qed.

Lemma new_key_nonempty parent_key sep key :
  parent_key <> "" \/ key <> "" -> new_key parent_key sep key <> "".
Proof.
  unfold new_key. destruct parent_key as [|x p]; simpl.
  - intros [H|H]; congruence.
  - discriminate.
Qed.

(** The part of a key after a clean segment is empty or starts with the
    separator character, so the segment is determined by the key. *)
Lemma clean_segment_unique (c : ascii) (k1 k2 x1 x2 : string) :
  occurs c k1 = false -> occurs c k2 = false ->
  (x1 = "" \/ exists s, x1 = String c s) ->
  (x2 = "" \/ exists s, x2 = String c s) ->
  (k1 ++ x1 = k2 ++ x2)%string -> k1 = k2.
Proof.
  unfold occurs. revert k2.
  induction k1 as [|a k1 IH]; intros [|b k2]; simpl; intros H1 H2 T1 T2 E.
  - reflexivity.
  - exfalso. apply orb_false_iff in H2 as [Hb _].
    destruct T1 as [->|[s ->]]; [discriminate|].
    injection E as -> _. now rewrite Ascii.eqb_refl in Hb.
  - exfalso. apply orb_false_iff in H1 as [Ha _].
    destruct T2 as [->|[s ->]]; [discriminate|].
    injection E as <- _. now rewrite Ascii.eqb_refl in Ha.
  - apply orb_false_iff in H1 as [_ H1]. apply orb_false_iff in H2 as [_ H2].
    injection E as -> E. f_equal. eauto.
Qed.

Lemma under_tail (c : ascii) (p k key : string) :
  under (new_key p (String c "") k) (String c "") key ->
  exists x, (x = "" \/ exists s, x = String c s)
            /\ key = ((if truthy p then p ++ String c "" else "") ++ k ++ x)%string.
Proof.
  unfold under, new_key. destruct (truthy p).
  - intros [->|[rest ->]].
    + exists "". split; [now left|]. rewrite !append_assoc. simpl.
      f_equal. f_equal. induction k; simpl; congruence.
    + exists (String c rest). split; [right; eauto|].
      now rewrite !append_assoc.
  - intros [->|[rest ->]].
    + exists "". split; [now left|]. simpl. induction k; simpl; congruence.
    + exists (String c rest). split; [right; eauto|]. reflexivity.
Qed.

(** Two distinct clean segments under one parent head disjoint families
    of keys. *)
Lemma siblings_disjoint (c : ascii) (p k1 k2 key : string) :
  occurs c k1 = false -> occurs c k2 = false -> k1 <> k2 ->
  under (new_key p (String c "") k1) (String c "") key ->
  under (new_key p (String c "") k2) (String c "") key -> False.
Proof.
  intros H1 H2 Hne U1 U2.
  apply under_tail in U1 as (x1 & T1 & E1).
  apply under_tail in U2 as (x2 & T2 & E2).
  rewrite E1 in E2. apply append_cancel_l in E2.
  apply Hne. exact (clean_segment_unique c k1 k2 x1 x2 H1 H2 T1 T2 E2).
Qed.

(** ** Index segments *)

Lemma string_of_uint_digits (d : uint) (a : ascii) :
  In a (list_ascii_of_string (NilEmpty.string_of_uint d)) ->
  is_digit a = true.
Proof.
  induction d; simpl; intros H; try contradiction;
    (destruct H as [<-|H]; [reflexivity|auto]).
Qed.

Lemma str_of_nat_clean (c : ascii) (n : nat) :
  is_digit c = false -> occurs c (str_of_nat n) = false.
Proof.
  intros Hc. unfold occurs.
  destruct (existsb (Ascii.eqb c) (list_ascii_of_string (str_of_nat n)))
    eqn:E; [|reflexivity].
  apply existsb_exists in E as (a & Ha & Hca).
  apply Ascii.eqb_eq in Hca. subst a.
  apply string_of_uint_digits in Ha. congruence.
Qed.

Lemma str_of_nat_inj (n m : nat) : str_of_nat n = str_of_nat m -> n = m.
Proof.
  unfold str_of_nat. intros E.
  apply Unsigned.to_uint_inj.
  pose proof (NilEmpty.usu (Nat.to_uint n)) as Hn.
  pose proof (NilEmpty.usu (Nat.to_uint m)) as Hm.
  rewrite E in Hn. congruence.
Qed.

Lemma str_of_nat_nonempty (n : nat) : str_of_nat n <> "".
Proof.
  unfold str_of_nat. intros E.
  assert (Hnil : Nat.to_uint n = Nil).
  { pose proof (NilEmpty.usu (Nat.to_uint n)) as H.
    rewrite E in H. simpl in H. congruence. }
  pose proof (Unsigned.of_to n) as H. rewrite Hnil in H. simpl in H.
  subst n. discriminate Hnil.
Qed.

(** ** The loops of the flattener *)

Lemma flatten_json_map kvs p sep :
  flatten_json (JMap kvs) p sep = fold_left (map_step p sep) kvs [].
Proof. reflexivity. Qed.

Lemma flatten_json_list vs p sep :
  flatten_json (JList vs) p sep
  = snd (fold_left (list_step p sep) vs (0, [])).
Proof. reflexivity. Qed.

Lemma map_loop_NoDup p sep kvs : forall items,
  NoDup (Dict.keys items) ->
  NoDup (Dict.keys (fold_left (map_step p sep) kvs items)).
Proof.
  induction kvs as [|kv r IH]; simpl; intros items H; [assumption|].
  apply IH. now apply NoDup_keys_update.
Qed.

Lemma list_loop_NoDup p sep vs : forall st,
  NoDup (Dict.keys (snd st)) ->
  NoDup (Dict.keys (snd (fold_left (list_step p sep) vs st))).
Proof.
  induction vs as [|v r IH]; simpl; intros st H; [assumption|].
  apply IH. simpl. now apply NoDup_keys_update.
Qed.

(** A FlatRecord never holds a key twice. *)
Lemma flatten_keys_NoDup data p sep :
  NoDup (Dict.keys (flatten_json data p sep)).
Proof.
  destruct data as [x|vs|kvs].
  - simpl. constructor; [intros []|constructor].
  - rewrite flatten_json_list. apply list_loop_NoDup. constructor.
  - rewrite flatten_json_map. apply map_loop_NoDup. constructor.
Qed.

Lemma under_child (p sep k key : string) :
  p <> "" -> under (new_key p sep k) sep key -> under p sep key.
Proof.
  intros Hp. unfold under, new_key.
  destruct p as [|a p]; [congruence|]. simpl truthy. cbv iota.
  intros [->|[rest ->]]; right.
  - exists k. reflexivity.
  - exists (k ++ sep ++ rest)%string. now rewrite !append_assoc.
Qed.

Lemma map_loop_under p sep kvs :
  p <> "" ->
  Forall (fun kv => keys_under_at sep (snd kv)) kvs ->
  forall items,
    (forall key, In key (Dict.keys items) -> under p sep key) ->
    forall key, In key (Dict.keys (fold_left (map_step p sep) kvs items)) ->
                under p sep key.
Proof.
  intros Hp. induction 1 as [|kv r Hkv _ IH]; simpl; intros items Hi key Hin.
  - auto.
  - refine (IH _ _ key Hin). clear key Hin. intros key Hk.
    unfold map_step in Hk. apply keys_update in Hk as [Hk|Hk].
    + auto.
    + apply (under_child p sep (fst kv)); [assumption|].
      apply Hkv; [|assumption]. apply new_key_nonempty. now left.
Qed.

Lemma list_loop_under p sep vs :
  p <> "" ->
  Forall (keys_under_at sep) vs ->
  forall st,
    (forall key, In key (Dict.keys (snd st)) -> under p sep key) ->
    forall key,
      In key (Dict.keys (snd (fold_left (list_step p sep) vs st))) ->
      under p sep key.
Proof.
  intros Hp. induction 1 as [|v r Hv _ IH]; simpl; intros st Hi key Hin.
  - auto.
  - refine (IH _ _ key Hin). clear key Hin. intros key Hk.
    simpl in Hk. apply keys_update in Hk as [Hk|Hk].
    + auto.
    + apply (under_child p sep (str_of_nat (fst st))); [assumption|].
      apply Hv; [|assumption]. apply new_key_nonempty. now left.
Qed.

(** Below a non-empty prefix every key is the prefix or extends it past a
    separator. *)
Lemma flatten_keys_under sep data : keys_under_at sep data.
Proof.
  induction data as [x|vs IH|kvs IH] using json_ind; intros q key Hq Hin.
  - simpl in Hin. destruct Hin as [<-|[]]. now left.
  - rewrite flatten_json_list in Hin.
    eapply list_loop_under; eauto. simpl. intros ? [].
  - rewrite flatten_json_map in Hin.
    eapply map_loop_under; eauto. simpl. intros ? [].
Qed.

Lemma map_loop_bound p sep kvs :
  Forall (fun kv => forall q, List.length (flatten_json (snd kv) q sep)
                              <= leaves (snd kv)) kvs ->
  forall items,
    List.length (fold_left (map_step p sep) kvs items)
    <= List.length items + list_sum (map (fun kv => leaves (snd kv)) kvs).
Proof.
  induction 1 as [|kv r Hkv _ IH]; simpl; intros items; [lia|].
  specialize (IH (map_step p sep items kv)).
  pose proof (length_update_le items
                (flatten_json (snd kv) (new_key p sep (fst kv)) sep)) as Hu.
  specialize (Hkv (new_key p sep (fst kv))).
  unfold map_step in *. lia.
Qed.

Lemma list_loop_bound p sep vs :
  Forall (fun v => forall q, List.length (flatten_json v q sep)
                             <= leaves v) vs ->
  forall st,
    List.length (snd (fold_left (list_step p sep) vs st))
    <= List.length (snd st) + list_sum (map leaves vs).
Proof.
  induction 1 as [|v r Hv _ IH]; simpl; intros st; [lia|].
  specialize (IH (list_step p sep st v)).
  pose proof (length_update_le (snd st)
                (flatten_json v (new_key p sep (str_of_nat (fst st))) sep))
    as Hu.
  specialize (Hv (new_key p sep (str_of_nat (fst st)))).
  simpl in IH. lia.
Qed.

(** For every record, whatever its keys: an entry per leaf at most. *)
Lemma flatten_size_le_leaves (data : json) (p sep : string) :
  List.length (flatten_json data p sep) <= leaves data.
Proof.
  revert p. induction data as [x|vs IH|kvs IH] using json_ind; intros p.
  - simpl. lia.
  - rewrite flatten_json_list.
    pose proof (list_loop_bound p sep vs IH (0, [])) as H. simpl in *. lia.
  - rewrite flatten_json_map.
    pose proof (map_loop_bound p sep kvs IH []) as H. simpl in *. lia.
Qed.

Lemma distinct_NoDup (l : list string) : distinct l = true -> NoDup l.
Proof.
  induction l as [|x r IH]; simpl; intros H; constructor.
  - apply andb_true_iff in H as [H _]. apply negb_true_iff in H.
    intros Hin. assert (existsb (String.eqb x) r = true); [|congruence].
    apply existsb_exists. exists x. split; [assumption|apply String.eqb_refl].
  - apply andb_true_iff in H as [_ H]. auto.
Qed.

Lemma clean_key_spec c key :
  clean_key c key = true -> key <> "" /\ occurs c key = false.
Proof.
  unfold clean_key. intros H. apply andb_true_iff in H as [H1 H2].
  split; [now apply truthy_nonempty|].
  now apply negb_true_iff in H2.
Qed.

Lemma map_loop_exact c p kvs :
  NoDup (map fst kvs) ->
  Forall (fun kv => clean_key c (fst kv) = true) kvs ->
  Forall (fun kv => exact_at c (snd kv)) kvs ->
  forall items,
    (forall key kv, In key (Dict.keys items) -> In kv kvs ->
       ~ under (new_key p (String c "") (fst kv)) (String c "") key) ->
    List.length (fold_left (map_step p (String c "")) kvs items)
    = List.length items + list_sum (map (fun kv => leaves (snd kv)) kvs).
Proof.
  induction kvs as [|kv r IH]; simpl; intros Hnd Hclean Hex items Hfresh.
  - lia.
  - inversion Hnd as [|? ? Hn Hr]; subst.
    apply Forall_cons_iff in Hclean as [Hk Hcr].
    apply Forall_cons_iff in Hex as [He Her].
    apply clean_key_spec in Hk as [Hk1 Hk2].
    set (q := new_key p (String c "") (fst kv)) in *.
    assert (Hq : q <> "") by (apply new_key_nonempty; now right).
    assert (Happ : map_step p (String c "") items kv
                   = items ++ flatten_json (snd kv) q (String c "")).
    { unfold map_step. apply update_disjoint.
      - apply flatten_keys_NoDup.
      - intros x Hx Hin. apply (Hfresh x kv Hin); [now left|].
        exact (flatten_keys_under _ _ q x Hq Hx). }
    rewrite Happ, IH; try assumption.
    + rewrite length_app, (He q). lia.
    + intros key kv' Hin Hkv' U'.
      unfold Dict.keys in Hin. rewrite map_app, in_app_iff in Hin.
      destruct Hin as [Hin|Hin].
      * apply (Hfresh key kv' Hin); [now right|assumption].
      * apply (flatten_keys_under _ _ q key Hq) in Hin.
        rewrite Forall_forall in Hcr.
        destruct (clean_key_spec c _ (Hcr kv' Hkv')) as [_ Hc'].
        apply (siblings_disjoint c p (fst kv) (fst kv') key); try assumption.
        intros E. apply Hn. rewrite E. now apply in_map.
Qed.

Lemma list_loop_exact c p vs :
  is_digit c = false ->
  Forall (exact_at c) vs ->
  forall st,
    (forall key j, In key (Dict.keys (snd st)) -> fst st <= j ->
       ~ under (new_key p (String c "") (str_of_nat j)) (String c "") key) ->
    List.length (snd (fold_left (list_step p (String c "")) vs st))
    = List.length (snd st) + list_sum (map leaves vs).
Proof.
  intros Hc. induction 1 as [|v r He _ IH]; simpl; intros st Hfresh.
  - lia.
  - set (q := new_key p (String c "") (str_of_nat (fst st))) in *.
    assert (Hq : q <> "").
    { apply new_key_nonempty. right. apply str_of_nat_nonempty. }
    assert (Happ : Dict.update (snd st) (flatten_json v q (String c ""))
                   = snd st ++ flatten_json v q (String c "")).
    { apply update_disjoint.
      - apply flatten_keys_NoDup.
      - intros x Hx Hin. apply (Hfresh x (fst st) Hin); [lia|].
        exact (flatten_keys_under _ _ q x Hq Hx). }
    assert (Hstep : list_step p (String c "") st v
                    = (S (fst st), snd st ++ flatten_json v q (String c ""))).
    { unfold list_step. fold q. now rewrite Happ. }
    rewrite Hstep, IH; cbn [fst snd].
    + rewrite length_app, (He q). lia.
    + intros key j Hin Hj U'.
      unfold Dict.keys in Hin. rewrite map_app, in_app_iff in Hin.
      destruct Hin as [Hin|Hin].
      * apply (Hfresh key j Hin); [lia|assumption].
      * apply (flatten_keys_under _ _ q key Hq) in Hin.
        apply (siblings_disjoint c p (str_of_nat (fst st)) (str_of_nat j) key);
          try assumption; try (now apply str_of_nat_clean).
        intros E. apply str_of_nat_inj in E. lia.
Qed.

Lemma flatten_exact (c : ascii) (data : json) :
  is_digit c = false ->
  unique_keys data = true -> clean_keys c data = true ->
  exact_at c data.
Proof.
  intros Hc.
  induction data as [x|vs IH|kvs IH] using json_ind; intros Hu Hk q.
  - reflexivity.
  - rewrite flatten_json_list. simpl in Hu, Hk.
    rewrite forallb_forall in Hu, Hk. rewrite Forall_forall in IH.
    rewrite list_loop_exact; [reflexivity|assumption| |intros ? ? []].
    apply Forall_forall. intros v Hv. apply IH; auto.
  - rewrite flatten_json_map. simpl in Hu, Hk.
    apply andb_true_iff in Hu as [Hnd Hu]. apply distinct_NoDup in Hnd.
    rewrite forallb_forall in Hu, Hk. rewrite Forall_forall in IH.
    rewrite map_loop_exact; [reflexivity|assumption| | |intros ? ? []].
    + apply Forall_forall. intros kv Hkv.
      specialize (Hk kv Hkv). now apply andb_true_iff in Hk as [].
    + apply Forall_forall. intros kv Hkv. apply IH; auto.
      specialize (Hk kv Hkv). now apply andb_true_iff in Hk as [].
Qed.

(** C5, as the loader has it: when every mapping of the record has distinct
    keys, no key is empty or contains the separator, and the separator is one
    character that is not a decimal digit, the FlatRecord has exactly one
    entry per scalar leaf, whatever the prefix; empty mappings and empty
    sequences have no leaf and add no entry. *)
Theorem flatten_leaf_count (r : json) (c : ascii) (prefix : string) :
  is_digit c = false ->
  unique_keys r = true ->
  clean_keys c r = true ->
  List.length (flatten_json r prefix (String c "")) = leaves r.
Proof.
  intros Hc Hu Hk. now apply flatten_exact.
Qed.

Lemma flatten_leaf_count_witness :
  List.length
    (flatten_json
       (JMap [("a", JLeaf (SNum 1)); ("e", JMap []);
              ("b", JList [JLeaf SNone; JMap [("c", JLeaf (SStr "x"))]])])
       "" "_")
  = 3.
Proof.
  apply (flatten_leaf_count
           (JMap [("a", JLeaf (SNum 1)); ("e", JMap []);
                  ("b", JList [JLeaf SNone; JMap [("c", JLeaf (SStr "x"))]])])
           "_"%char ""); reflexivity.
Defined.

(** C5 as stated fails: a key containing the separator makes two leaves
    share one FlatKey, and the later value replaces the earlier. *)
Lemma flatten_leaf_count_counterexample :
  unique_keys colliding_record = true
  /\ leaves colliding_record = 2
  /\ flatten_json colliding_record "" "_" = [("a_b", SNum 2)]
  /\ List.length (flatten_json colliding_record "" "_")
     <> leaves colliding_record.
Proof. repeat split. simpl. discriminate. Qed.

(** An empty key collides without any separator: below it the prefix is
    empty again, so the nested [a] and the top-level [a] share a FlatKey. *)
Lemma flatten_empty_key_collision :
  unique_keys empty_key_record = true
  /\ leaves empty_key_record = 2
  /\ flatten_json empty_key_record "" "_" = [("a", SNum 2)].
Proof. repeat split. Qed.

(** * The merge statement *)

Lemma merge_update_spec cfg columns c :
  In c (merge_update (merge_sql cfg columns))
  <-> In c columns /\ c <> "uuid".
Proof.
  simpl. rewrite filter_In, negb_true_iff, String.eqb_neq. reflexivity.
Qed.

(** C6, as the loader has it: the merge key is the literal column [uuid],
    whatever the configuration; [uuid] is the column of the match predicate
    and is never in the overwrite list, which is every other column; the
    insert list is the whole ColumnSet, so it holds [uuid] exactly when the
    sample record produced that column. *)
Theorem merge_key_is_uuid (cfg : config) (columns : list string) :
  merge_on (merge_sql cfg columns) = ("uuid", "uuid")
  /\ ~ In "uuid" (merge_update (merge_sql cfg columns))
  /\ (forall c, In c (merge_update (merge_sql cfg columns))
                <-> In c columns /\ c <> "uuid")
  /\ merge_insert_columns (merge_sql cfg columns) = columns
  /\ merge_insert_values (merge_sql cfg columns) = columns
  /\ (key_policy "uuid" (merge_sql cfg columns) <-> In "uuid" columns).
Proof.
  assert (Hnot : ~ In "uuid" (merge_update (merge_sql cfg columns))).
  { rewrite merge_update_spec. intros [_ H]. now apply H. }
  split; [reflexivity|]. split; [exact Hnot|].
  split; [intros c; apply merge_update_spec|].
  split; [reflexivity|]. split; [reflexivity|].
  unfold key_policy. split.
  - intros (_ & _ & H). exact H.
  - intros H. repeat split; assumption.
Qed.

(** C6 as stated fails: for records keyed by [id] no column at all, the
    run's own key included, is treated as the claim says; [id] is
    overwritten on match and the match is on [uuid], which the insert list
    does not even hold. *)
Lemma merge_key_counterexample :
  merge_on (merge_sql cfg_example (infer_columns record_keyed_by_id))
    = ("uuid", "uuid")
  /\ In "id" (merge_update
                (merge_sql cfg_example (infer_columns record_keyed_by_id)))
  /\ ~ In "uuid" (merge_insert_columns
                    (merge_sql cfg_example (infer_columns record_keyed_by_id)))
  /\ ~ exists k,
         key_policy k
           (merge_sql cfg_example (infer_columns record_keyed_by_id)).
Proof.
  assert (Hcols : infer_columns record_keyed_by_id = ["id"; "name"])
    by reflexivity.
  rewrite Hcols. repeat split.
  - simpl. now left.
  - simpl. intuition discriminate.
  - intros (k & _ & Hon & Hin). simpl in Hon, Hin.
    injection Hon as <- _. intuition discriminate.
Qed.

(** * Empty source *)

Lemma batches_app (a b : list call) : batches (a ++ b) = batches a ++ batches b.
Proof. apply flat_map_app. Qed.

Lemma merges_app (a b : list call) : merges (a ++ b) = merges a ++ merges b.
Proof. apply flat_map_app. Qed.

(** C3, as the loader has it: on an empty scan both load modes hand the
    sink no batch and no merge (only the create-if-absent statement runs) and
    log the warning; each entry point still returns its one fixed result,
    status 200 with the mode's success text. *)
Theorem empty_source_outcome (cfg : config) (w : world) :
  (fst (truncate_load_handler cfg [] w)
     = Ret {| statusCode := 200; body := "Full load succeeded" |}
   /\ batches (calls (snd (truncate_load_handler cfg [] w)))
        = batches (calls w)
   /\ merges (calls (snd (truncate_load_handler cfg [] w)))
        = merges (calls w)
   /\ snow_table (snd (truncate_load_handler cfg [] w))
        = ensured (snow_table w)
   /\ warnings (snd (truncate_load_handler cfg [] w))
        = warnings w ++ ["No items in DynamoDB table."])
  /\
  (fst (incremental_upsert_handler cfg [] w)
     = Ret {| statusCode := 200; body := "Upsert succeeded" |}
   /\ batches (calls (snd (incremental_upsert_handler cfg [] w)))
        = batches (calls w)
   /\ merges (calls (snd (incremental_upsert_handler cfg [] w)))
        = merges (calls w)
   /\ snow_table (snd (incremental_upsert_handler cfg [] w))
        = ensured (snow_table w)
   /\ warnings (snd (incremental_upsert_handler cfg [] w))
        = warnings w ++ ["No items in DynamoDB table."]).
Proof.
  split; cbn; rewrite !batches_app, !merges_app; cbn;
    rewrite !app_nil_r; repeat split.
Qed.

(** C3 as stated fails: the result returned for an empty source is the very
    result returned after a load that wrote rows. *)
Lemma empty_source_counterexample :
  fst (truncate_load_handler cfg_example [] world0)
    = fst (truncate_load_handler cfg_example [record_a] world0)
  /\ batches (calls (snd (truncate_load_handler cfg_example [record_a] world0)))
       <> []
  /\ fst (incremental_upsert_handler cfg_example [] world0)
       = fst (incremental_upsert_handler cfg_example [record_a] world0)
  /\ merges (calls (snd (incremental_upsert_handler cfg_example [record_a]
                           world0)))
       <> [].
Proof. repeat split; vm_compute; discriminate. Qed.

(** * Full refresh *)

Lemma load_truncate_unfold cfg first_rec rest :
  load_truncate cfg (first_rec :: rest)
  = (ensure_table cfg ;;
     batch <- for_each ([first_rec] ++ first_rec :: rest) []
                (truncate_step cfg (infer_columns first_rec)) ;;
     match batch with
     | [] => ret tt
     | _ :: _ =>
         cur_executemany (insert_sql cfg (infer_columns first_rec)) batch ;;
         conn_commit
     end ;;
     cur_close).
Proof. reflexivity. Qed.

(** ** Columns and parameters *)

Lemma infer_columns_NoDup (sample : json) : NoDup (infer_columns sample).
Proof.
  unfold infer_columns, sorted.
  eapply Permutation_NoDup; [apply StringSort.Permuted_sort|].
  apply flatten_keys_NoDup.
Qed.

Lemma bind_params_map (g : string -> scalar) (columns : list string) :
  forall cols, incl cols columns ->
    bind_params cols (map (fun c => (c, g c)) columns)
    = Some (map (fun c => (c, g c)) cols).
Proof.
  induction cols as [|c r IH]; simpl; intros Hincl; [reflexivity|].
  rewrite lookup_map_in by (apply Hincl; now left).
  rewrite IH; [reflexivity|].
  intros x Hx. apply Hincl. now right.
Qed.

(** A projected row carries a parameter for every placeholder. *)
Lemma bind_params_project columns rec :
  NoDup columns ->
  bind_params columns (project_row columns rec) = Some (project_row columns rec).
Proof.
  intros Hnd. unfold project_row. rewrite (project_map _ _ Hnd).
  apply bind_params_map. apply incl_refl.
Qed.

Lemma run_many_insert rel columns batch : forall t,
  Forall (fun row => bind_params columns row = Some row) batch ->
  run_many (InsertInto rel columns) batch (Some t) = Some (Some (t ++ batch)).
Proof.
  induction batch as [|row r IH]; simpl; intros t H.
  - now rewrite app_nil_r.
  - apply Forall_cons_iff in H as [Hrow Hr].
    rewrite Hrow, IH by assumption.
    now rewrite <- app_assoc.
Qed.

(** ** The streaming loop *)

Lemma chunk_rows_bound full columns : forall rows batch,
  Forall (fun row => bind_params columns row = Some row) batch ->
  Forall (fun row => bind_params columns row = Some row) rows ->
  Forall (Forall (fun row => bind_params columns row = Some row))
    (fst (chunk_rows full batch rows))
  /\ Forall (fun row => bind_params columns row = Some row)
       (snd (chunk_rows full batch rows)).
Proof.
  induction rows as [|row rest IH]; simpl; intros batch Hb Hr.
  - split; [constructor|assumption].
  - apply Forall_cons_iff in Hr as [Hrow Hrest].
    assert (Hb' : Forall (fun row => bind_params columns row = Some row)
                    (batch ++ [row])).
    { apply Forall_app. split; [assumption|now constructor]. }
    destruct (full (batch ++ [row])); simpl.
    + destruct (IH [] (Forall_nil _) Hrest) as [H1 H2].
      split; [constructor|]; assumption.
    + now apply IH.
Qed.

Lemma chunk_rows_concat full : forall rows batch,
  List.concat (fst (chunk_rows full batch rows))
    ++ snd (chunk_rows full batch rows)
  = batch ++ rows.
Proof.
  induction rows as [|row rest IH]; simpl; intros batch.
  - now rewrite app_nil_r.
  - destruct (full (batch ++ [row])); simpl.
    + rewrite <- !app_assoc. f_equal. simpl. f_equal. apply (IH []).
    + rewrite IH. now rewrite <- app_assoc.
Qed.

Lemma truncate_loop_run cfg columns :
  NoDup columns ->
  forall recs batch w t,
    snow_table w = Some t ->
    Forall (fun row => bind_params columns row = Some row) batch ->
    for_each recs batch (truncate_step cfg columns) w
    = (Ret (snd (chunk_rows (batch_full cfg) batch
                   (map (project_row columns) recs))),
       {| snow_table :=
            Some (t ++ List.concat
                         (fst (chunk_rows (batch_full cfg) batch
                                 (map (project_row columns) recs))));
          calls :=
            calls w
              ++ flush_calls (insert_sql cfg columns)
                   (fst (chunk_rows (batch_full cfg) batch
                           (map (project_row columns) recs)));
          warnings := warnings w |}).
Proof.
  intros Hnd.
  induction recs as [|rec rest IH]; intros batch w t Ht Hb.
  - destruct w as [tb cs ws]. simpl in *. subst tb.
    unfold ret. now rewrite !app_nil_r.
  - simpl for_each. unfold bind at 1. unfold truncate_step at 1.
    cbn zeta. fold (project_row columns rec). cbn [map chunk_rows].
    assert (Hb' : Forall (fun row => bind_params columns row = Some row)
                    (batch ++ [project_row columns rec])).
    { apply Forall_app. split; [assumption|].
      constructor; [now apply bind_params_project|constructor]. }
    destruct (batch_full cfg (batch ++ [project_row columns rec])).
    + unfold bind, cur_executemany, conn_commit, ret, insert_sql.
      cbn [snow_table record with_table calls warnings].
      rewrite Ht, (run_many_insert _ _ _ _ Hb').
      rewrite (IH [] _ (t ++ batch ++ [project_row columns rec]));
        [|reflexivity|constructor].
      unfold record, with_table, flush_calls, insert_sql.
      cbn [fst snd snow_table calls warnings List.concat flat_map].
      f_equal. f_equal; rewrite <- ?app_assoc; reflexivity.
    + unfold ret at 1. now rewrite (IH _ _ t Ht Hb').
Qed.

Lemma batches_flush_calls st ws : batches (flush_calls st ws) = ws.
Proof.
  induction ws as [|b r IH]; simpl; [reflexivity|].
  f_equal. exact IH.
Qed.

Lemma merges_flush_calls cfg columns ws :
  merges (flush_calls (insert_sql cfg columns) ws) = [].
Proof. induction ws as [|b r IH]; simpl; [reflexivity|exact IH]. Qed.

(** ** The whole load *)

(** A full refresh of a non-empty source always returns; this is the state
    it leaves. *)
Lemma load_truncate_run cfg first_rec rest w :
  load_truncate cfg (first_rec :: rest) w
  = (Ret tt,
     {| snow_table :=
          Some (rows_of (snow_table w)
                  ++ truncate_rows (first_rec :: rest));
        calls :=
          calls w
            ++ Execute (CREATE_TABLE_DDL cfg) []
            :: flush_calls (insert_sql cfg (infer_columns first_rec))
                 (fst (chunk_rows (batch_full cfg) []
                         (truncate_rows (first_rec :: rest))))
            ++ flush_calls (insert_sql cfg (infer_columns first_rec))
                 (final_flush
                    (snd (chunk_rows (batch_full cfg) []
                            (truncate_rows (first_rec :: rest)))))
            ++ [CursorClose];
        warnings := warnings w |}).
Proof.
  rewrite load_truncate_unfold.
  pose proof (infer_columns_NoDup first_rec) as Hnd.
  set (columns := infer_columns first_rec) in *.
  unfold bind at 1. unfold ensure_table, cur_execute.
  cbn [run_statement CREATE_TABLE_DDL record snow_table with_table calls
       warnings].
  unfold bind at 1.
  rewrite (truncate_loop_run cfg columns Hnd _ [] _ (rows_of (snow_table w)));
    [|destruct (snow_table w); reflexivity|constructor].
  unfold truncate_rows. fold columns.
  set (rows := map (project_row columns) ([first_rec] ++ first_rec :: rest)).
  pose proof (chunk_rows_concat (batch_full cfg) rows []) as Hcat.
  assert (Hrows : Forall (fun row => bind_params columns row = Some row) rows).
  { apply Forall_forall. intros row Hin. apply in_map_iff in Hin as (r & <- & _).
    now apply bind_params_project. }
  destruct (chunk_rows_bound (batch_full cfg) columns rows []
              (Forall_nil _) Hrows) as [_ Hlast].
  change ([] ++ rows) with rows in Hcat. clearbody rows.
  destruct (snd (chunk_rows (batch_full cfg) [] rows)) as [|row last] eqn:El.
  - unfold bind, ret, cur_close, record, with_table.
    cbn [snow_table calls warnings final_flush flush_calls flat_map].
    rewrite app_nil_r in Hcat. rewrite Hcat.
    f_equal. f_equal. rewrite <- !app_assoc. reflexivity.
  - unfold bind, ret, cur_close, cur_executemany, conn_commit, record,
      with_table.
    cbn [snow_table calls warnings final_flush flush_calls flat_map].
    unfold insert_sql at 1.
    rewrite (run_many_insert _ _ _ _ Hlast).
    cbn [snow_table calls warnings].
    rewrite <- (app_assoc (rows_of (snow_table w))), Hcat.
    f_equal. f_equal. rewrite <- !app_assoc. reflexivity.
Qed.

Lemma load_truncate_batches cfg first_rec rest w :
  batches (calls (snd (load_truncate cfg (first_rec :: rest) w)))
  = batches (calls w)
      ++ fst (chunk_rows (batch_full cfg) []
                (truncate_rows (first_rec :: rest)))
      ++ final_flush (snd (chunk_rows (batch_full cfg) []
                             (truncate_rows (first_rec :: rest)))).
Proof.
  rewrite load_truncate_run. cbn [snd calls].
  rewrite batches_app. f_equal.
  change (Execute ?s ?p :: ?l) with ([Execute s p] ++ l).
  rewrite !batches_app, !batches_flush_calls. simpl.
  now rewrite app_nil_r.
Qed.

Lemma concat_final_flush (batch : list Row) :
  List.concat (final_flush batch) = batch.
Proof. destruct batch; simpl; [reflexivity|now rewrite app_nil_r]. Qed.

(** Every row of the loop reaches the sink, in order, whatever the batch
    size. *)
Lemma load_truncate_rows_written cfg first_rec rest w :
  List.concat (batches (calls (snd (load_truncate cfg (first_rec :: rest) w))))
  = List.concat (batches (calls w)) ++ truncate_rows (first_rec :: rest).
Proof.
  rewrite load_truncate_batches, !concat_app, concat_final_flush.
  f_equal. apply (chunk_rows_concat (batch_full cfg) _ []).
Qed.

(** ** Batch sizes *)

Lemma batch_full_spec cfg (batch : list Row) :
  (0 < BATCH_SIZE cfg)%Z ->
  batch_full cfg batch
  = Nat.leb (Z.to_nat (BATCH_SIZE cfg)) (List.length batch).
Proof.
  intros Hpos. unfold batch_full.
  destruct (Z.leb_spec (BATCH_SIZE cfg) (Z.of_nat (List.length batch)));
    destruct (Nat.leb_spec (Z.to_nat (BATCH_SIZE cfg)) (List.length batch));
    try reflexivity; lia.
Qed.

Lemma chunk_rows_counts cfg :
  (0 < BATCH_SIZE cfg)%Z ->
  forall rows batch,
    List.length batch < Z.to_nat (BATCH_SIZE cfg) ->
    Forall (fun b => List.length b = Z.to_nat (BATCH_SIZE cfg))
      (fst (chunk_rows (batch_full cfg) batch rows))
    /\ List.length (fst (chunk_rows (batch_full cfg) batch rows))
       = (List.length batch + List.length rows) / Z.to_nat (BATCH_SIZE cfg)
    /\ List.length (snd (chunk_rows (batch_full cfg) batch rows))
       = (List.length batch + List.length rows) mod Z.to_nat (BATCH_SIZE cfg).
Proof.
  intros Hpos. set (t := Z.to_nat (BATCH_SIZE cfg)).
  assert (Ht : t <> 0) by (unfold t; lia).
  induction rows as [|row rest IH]; intros batch Hlt.
  - simpl. rewrite Nat.add_0_r.
    rewrite Nat.div_small, Nat.mod_small by assumption. auto.
  - cbn [chunk_rows]. rewrite (batch_full_spec cfg _ Hpos). fold t.
    rewrite length_app. cbn [List.length].
    destruct (Nat.leb_spec t (List.length batch + 1)) as [Hfull|Hnot].
    + assert (E : List.length batch + S (List.length rest)
                  = 1 * t + List.length rest) by lia.
      assert (H0 : @List.length Row [] < t) by (simpl; lia).
      destruct (IH [] H0) as (Hall & Hlen & Hrem). simpl in Hlen, Hrem.
      cbn [fst snd]. rewrite E.
      rewrite Nat.div_add_l by assumption.
      rewrite (Nat.add_comm (1 * t)), Nat.Div0.mod_add.
      repeat split.
      * constructor; [|assumption]. rewrite length_app. simpl. lia.
      * simpl. now rewrite Hlen.
      * assumption.
    + assert (Hlt' : List.length (batch ++ [row]) < t)
        by (rewrite length_app; simpl; lia).
      destruct (IH _ Hlt') as (Hall & Hlen & Hrem).
      rewrite length_app in Hlen, Hrem. simpl in Hlen, Hrem.
      replace (List.length batch + S (List.length rest))
        with (List.length batch + 1 + List.length rest) by lia.
      auto.
Qed.

(** C4, as the loader has it: with threshold T > 0 and N rows run through
    the batch loop (the sample and then every scanned record), the loop
    hands the sink floor(N/T) batches of T rows each while streaming; the
    final flush writes the N mod T remaining rows as one more batch only
    when that remainder is not zero.  Together the batches are the N rows in
    order. *)
Theorem batch_flush_counts (cfg : config) (first_rec : json)
  (rest : list json) (w : world) :
  (0 < BATCH_SIZE cfg)%Z ->
  exists streamed final : list (list Row),
    batches (calls (snd (load_truncate cfg (first_rec :: rest) w)))
      = batches (calls w) ++ streamed ++ final
    /\ List.length streamed
       = S (List.length (first_rec :: rest)) / Z.to_nat (BATCH_SIZE cfg)
    /\ Forall (fun b => List.length b = Z.to_nat (BATCH_SIZE cfg)) streamed
    /\ List.length final
       = (if Nat.eqb (S (List.length (first_rec :: rest))
                        mod Z.to_nat (BATCH_SIZE cfg)) 0
          then 0 else 1)
    /\ Forall (fun b => List.length b
                        = S (List.length (first_rec :: rest))
                            mod Z.to_nat (BATCH_SIZE cfg)) final
    /\ List.concat (streamed ++ final) = truncate_rows (first_rec :: rest).
Proof.
  intros Hpos.
  set (rows := truncate_rows (first_rec :: rest)).
  assert (HN : List.length rows = S (List.length (first_rec :: rest))).
  { unfold rows, truncate_rows. rewrite length_map. reflexivity. }
  assert (H0 : @List.length Row [] < Z.to_nat (BATCH_SIZE cfg))
    by (simpl; lia).
  destruct (chunk_rows_counts cfg Hpos rows [] H0) as (Hall & Hlen & Hrem).
  rewrite HN in Hlen, Hrem.
  change (@List.length Row [] + ?n) with n in Hlen, Hrem.
  exists (fst (chunk_rows (batch_full cfg) [] rows)),
         (final_flush (snd (chunk_rows (batch_full cfg) [] rows))).
  split; [apply load_truncate_batches|].
  split; [exact Hlen|]. split; [exact Hall|].
  rewrite concat_app, concat_final_flush.
  split; [|split; [|apply (chunk_rows_concat (batch_full cfg) rows [])]].
  - destruct (snd (chunk_rows (batch_full cfg) [] rows)) as [|r l];
      simpl in *; rewrite <- Hrem; reflexivity.
  - destruct (snd (chunk_rows (batch_full cfg) [] rows)) as [|r l];
      simpl in *; [constructor|].
    constructor; [assumption|constructor].
Qed.

Lemma batch_flush_counts_witness :
  exists streamed final : list (list Row),
    batches (calls (snd (load_truncate cfg_batch_of_two
                           [record_a; record_b] world0)))
      = batches (calls world0) ++ streamed ++ final
    /\ List.length streamed = 1
    /\ Forall (fun b => List.length b = 2) streamed
    /\ List.length final = 1
    /\ Forall (fun b => List.length b = 1) final
    /\ List.concat (streamed ++ final) = truncate_rows [record_a; record_b].
Proof.
  apply (batch_flush_counts cfg_batch_of_two record_a [record_b] world0).
  reflexivity.
Defined.

(** C4 as stated fails: two rows with threshold two are written as one
    batch; no empty final batch follows. *)
Lemma batch_flush_counterexample :
  batches (calls (snd (load_truncate cfg_batch_of_two [record_a] world0)))
    = [[row_a; row_a]]
  /\ List.length
       (batches (calls (snd (load_truncate cfg_batch_of_two [record_a]
                               world0))))
     <> 2 / 2 + 1.
Proof. split; vm_compute; [reflexivity|discriminate]. Qed.

(** ** The sample record and earlier rows *)

(** C1 fails on the loader: from a source of one record the sink is handed
    two rows, the sample loaded once from the first scan and once more from
    the second. *)
Theorem load_truncate_duplicates_sample :
  fst (load_truncate cfg_example [record_a] world0) = Ret tt
  /\ List.concat
       (batches (calls (snd (load_truncate cfg_example [record_a] world0))))
     = [row_a; row_a]
  /\ map (project_row (infer_columns record_a)) [record_a] = [row_a].
Proof. repeat split. Qed.

(** C2 fails on the loader: a row that was in the relation before the run is
    still there after it; nothing is removed, the projected rows are added
    behind it. *)
Theorem load_truncate_keeps_old_rows :
  fst (load_truncate cfg_example [record_a] world_with_old_row) = Ret tt
  /\ snow_table (snd (load_truncate cfg_example [record_a]
                        world_with_old_row))
     = Some [old_row; row_a; row_a].
Proof. repeat split. Qed.

(** The same for every run: the relation after a full refresh is the
    relation before it followed by the rows of the loop. *)
Lemma load_truncate_appends cfg first_rec rest w :
  snow_table (snd (load_truncate cfg (first_rec :: rest) w))
  = Some (rows_of (snow_table w) ++ truncate_rows (first_rec :: rest)).
Proof. now rewrite load_truncate_run. Qed.

(** * Incremental upsert *)

(** ** Setting columns of a stored row *)

Lemma lookup_setitem_other (r : Row) (c k : string) (v : scalar) :
  k <> c -> Dict.lookup (Dict.setitem r c v) k = Dict.lookup r k.
Proof.
  intros Hne. induction r as [|[k' v'] r IH]; simpl.
  - destruct (String.eqb_spec c k); [congruence|reflexivity].
  - destruct (String.eqb_spec k' c) as [->|Hc]; simpl.
    + destruct (String.eqb_spec c k); [congruence|reflexivity].
    + destruct (String.eqb_spec k' k); [reflexivity|assumption].
Qed.

Lemma setitem_twice (r : Row) (c : string) (v v' : scalar) :
  Dict.setitem (Dict.setitem r c v) c v' = Dict.setitem r c v'.
Proof.
  induction r as [|[k' w] r IH]; simpl.
  - now rewrite String.eqb_refl.
  - destruct (String.eqb_spec k' c) as [->|Hc]; simpl.
    + now rewrite String.eqb_refl.
    + destruct (String.eqb_spec k' c); [congruence|]. now rewrite IH.
Qed.

(** Assignments to two columns commute as soon as one of the columns is
    already there. *)
Lemma setitem_comm (r : Row) (c c' : string) (v v' : scalar) :
  In c (Dict.keys r) -> c <> c' ->
  Dict.setitem (Dict.setitem r c' v') c v
  = Dict.setitem (Dict.setitem r c v) c' v'.
Proof.
  intros Hin Hne. induction r as [|[k w] r IH]; simpl in *; [contradiction|].
  destruct (String.eqb_spec k c') as [Ec'|Hc'];
    destruct (String.eqb_spec k c) as [Ec|Hc]; simpl.
  - congruence.
  - rewrite (proj2 (String.eqb_neq k c) Hc).
    now rewrite (proj2 (String.eqb_eq k c') Ec').
  - rewrite (proj2 (String.eqb_eq k c) Ec).
    now rewrite (proj2 (String.eqb_neq k c') Hc').
  - rewrite (proj2 (String.eqb_neq k c) Hc).
    rewrite (proj2 (String.eqb_neq k c') Hc').
    f_equal. apply IH. destruct Hin; [congruence|assumption].
Qed.

Lemma set_columns_cons cols c (s r : Row) :
  set_columns (c :: cols) s r
  = set_columns cols s (Dict.setitem r c (dict_get s c)).
Proof. reflexivity. Qed.

Lemma set_columns_setitem cols (s : Row) c v : forall r : Row,
  In c (Dict.keys r) -> ~ In c cols ->
  Dict.setitem (set_columns cols s r) c v
  = set_columns cols s (Dict.setitem r c v).
Proof.
  induction cols as [|c' cols IH]; intros r Hin Hn; [reflexivity|].
  rewrite !set_columns_cons.
  rewrite IH.
  - f_equal. apply setitem_comm; [assumption|].
    intros ->. apply Hn. now left.
  - apply keys_setitem. now left.
  - intros H. apply Hn. now right.
Qed.

(** A later assignment of the same columns overrides an earlier one
    completely. *)
Lemma set_columns_absorb cols (a b : Row) :
  NoDup cols ->
  forall r : Row,
    set_columns cols a (set_columns cols b r) = set_columns cols a r.
Proof.
  induction 1 as [|c cols Hn Hnd IH]; intros r; [reflexivity|].
  rewrite !set_columns_cons.
  rewrite (set_columns_setitem cols b c (dict_get a c));
    [|apply keys_setitem; now right|assumption].
  rewrite setitem_twice. apply IH.
Qed.

Lemma set_columns_self cols (s : Row) :
  incl cols (Dict.keys s) -> set_columns cols s s = s.
Proof.
  induction cols as [|c cols IH]; intros Hincl; [reflexivity|].
  rewrite set_columns_cons, setitem_same.
  - apply IH. intros x Hx. apply Hincl. now right.
  - unfold dict_get.
    destruct (lookup_in s c (Hincl c (or_introl eq_refl))) as [v ->].
    reflexivity.
Qed.

Lemma dict_get_set_columns cols (s : Row) k : forall r : Row,
  ~ In k cols -> dict_get (set_columns cols s r) k = dict_get r k.
Proof.
  induction cols as [|c cols IH]; intros r Hn; [reflexivity|].
  rewrite set_columns_cons, IH by (intros H; apply Hn; now right).
  unfold dict_get. rewrite lookup_setitem_other; [reflexivity|].
  intros ->. apply Hn. now left.
Qed.

(** ** Merging into the relation *)

Section Merge.
Variable m : merge_stmt.
Hypothesis update_NoDup : NoDup (merge_update m).
Hypothesis key_kept : ~ In (fst (merge_on m)) (merge_update m).

(** An update never changes which rows a parameter row matches. *)
Lemma matches_update_matched s s' r :
  merge_matches m s' (update_matched m s r) = merge_matches m s' r.
Proof.
  unfold update_matched. destruct (merge_matches m s r); [|reflexivity].
  unfold merge_matches. now rewrite dict_get_set_columns.
Qed.

Lemma matches_update_all rows s' : forall r,
  merge_matches m s' (update_all m rows r) = merge_matches m s' r.
Proof.
  unfold update_all.
  induction rows as [|s rows IH]; intros r; simpl; [reflexivity|].
  now rewrite IH, matches_update_matched.
Qed.

Lemma existsb_matches_map s s' t :
  existsb (merge_matches m s') (map (update_matched m s) t)
  = existsb (merge_matches m s') t.
Proof.
  induction t as [|r t IH]; simpl; [reflexivity|].
  now rewrite IH, matches_update_matched.
Qed.

(** Rows once matched stay matched. *)
Lemma merge_rows_keeps_match s s' t :
  existsb (merge_matches m s') t = true ->
  existsb (merge_matches m s') (merge_rows m s t) = true.
Proof.
  intros H. unfold merge_rows.
  destruct (existsb (merge_matches m s) t).
  - now rewrite existsb_matches_map.
  - rewrite existsb_app, H. reflexivity.
Qed.

Lemma merge_all_keeps_match rows s' : forall t,
  existsb (merge_matches m s') t = true ->
  existsb (merge_matches m s') (merge_all m rows t) = true.
Proof.
  unfold merge_all.
  induction rows as [|s rows IH]; intros t H; simpl; [assumption|].
  apply IH. now apply merge_rows_keeps_match.
Qed.

(** After its merge a good row has a match. *)
Lemma merge_rows_matched s t :
  good_row m s ->
  existsb (merge_matches m s) (merge_rows m s t) = true.
Proof.
  intros (Hins & _ & Hself). unfold merge_rows.
  destruct (existsb (merge_matches m s) t) eqn:E.
  - now rewrite existsb_matches_map.
  - rewrite existsb_app, Hins. simpl. now rewrite Hself, orb_true_r.
Qed.

Lemma merge_all_covers rows : forall t,
  Forall (good_row m) rows ->
  forall s, In s rows ->
    existsb (merge_matches m s) (merge_all m rows t) = true.
Proof.
  induction rows as [|s0 rows IH]; intros t Hgood s Hin; [contradiction|].
  apply Forall_cons_iff in Hgood as [Hg Hgood].
  change (merge_all m (s0 :: rows) t)
    with (merge_all m rows (merge_rows m s0 t)).
  destruct Hin as [->|Hin].
  - apply merge_all_keeps_match. now apply merge_rows_matched.
  - now apply IH.
Qed.

(** When every row already has a match, the merges only update. *)
Lemma merge_all_updates rows : forall t,
  (forall s, In s rows -> existsb (merge_matches m s) t = true) ->
  merge_all m rows t = map (update_all m rows) t.
Proof.
  induction rows as [|s0 rows IH]; intros t Hcov.
  - simpl. symmetry. apply map_id.
  - change (merge_all m (s0 :: rows) t)
      with (merge_all m rows (merge_rows m s0 t)).
    unfold merge_rows at 1. rewrite (Hcov s0) by now left.
    rewrite IH.
    + rewrite map_map. reflexivity.
    + intros s Hs. rewrite existsb_matches_map. apply Hcov. now right.
Qed.

Lemma set_columns_update_all rows s : forall r,
  set_columns (merge_update m) s (update_all m rows r)
  = set_columns (merge_update m) s r.
Proof.
  unfold update_all.
  induction rows as [|s0 rows IH]; intros r; simpl; [reflexivity|].
  rewrite IH. unfold update_matched.
  destruct (merge_matches m s0 r); [|reflexivity].
  now apply set_columns_absorb.
Qed.

Lemma update_all_app rows s r :
  update_all m (rows ++ [s]) r = update_matched m s (update_all m rows r).
Proof. unfold update_all. now rewrite fold_left_app. Qed.

Lemma merge_all_app rows s t :
  merge_all m (rows ++ [s]) t = merge_rows m s (merge_all m rows t).
Proof. unfold merge_all. now rewrite fold_left_app. Qed.

(** Every row of the relation after a run is left as it is by the updates
    of that run. *)
Lemma merge_all_settled rows :
  Forall (good_row m) rows ->
  forall t r, In r (merge_all m rows t) -> update_all m rows r = r.
Proof.
  induction rows as [|s rows IH] using rev_ind; intros Hgood t r Hin.
  - reflexivity.
  - apply Forall_app in Hgood as [Hgood Hs].
    apply Forall_cons_iff in Hs as [(Hins & Hincl & Hself) _].
    rewrite merge_all_app in Hin. rewrite update_all_app.
    unfold merge_rows in Hin.
    assert (Hupd : forall r', In r' (merge_all m rows t) ->
              update_matched m s (update_all m rows (update_matched m s r'))
              = update_matched m s r').
    { intros r' Hr'. unfold update_matched at 2 3.
      destruct (merge_matches m s r') eqn:Em.
      - unfold update_matched.
        rewrite matches_update_all.
        unfold merge_matches at 1.
        rewrite dict_get_set_columns by assumption.
        fold (merge_matches m s r'). rewrite Em.
        rewrite set_columns_update_all.
        now apply set_columns_absorb.
      - rewrite (IH Hgood t r' Hr').
        unfold update_matched. now rewrite Em. }
    destruct (existsb (merge_matches m s) (merge_all m rows t)) eqn:Ex.
    + apply in_map_iff in Hin as (r' & <- & Hr'). now apply Hupd.
    + apply in_app_iff in Hin as [Hin|[<-|[]]].
      * rewrite (IH Hgood t r Hin).
        unfold update_matched.
        assert (Hno : merge_matches m s r = false).
        { destruct (merge_matches m s r) eqn:Em; [|reflexivity].
          assert (existsb (merge_matches m s) (merge_all m rows t) = true)
            by (apply existsb_exists; eauto).
          congruence. }
        now rewrite Hno.
      * rewrite Hins. unfold update_matched.
        rewrite matches_update_all, Hself.
        rewrite set_columns_update_all.
        now apply set_columns_self.
Qed.

(** Merging the same good rows again changes nothing. *)
Lemma merge_all_idempotent rows t :
  Forall (good_row m) rows ->
  merge_all m rows (merge_all m rows t) = merge_all m rows t.
Proof.
  intros Hgood.
  rewrite merge_all_updates
    by (intros s Hs; now apply merge_all_covers).
  rewrite <- (map_id (merge_all m rows t)) at 2.
  apply map_ext_in. intros r Hr.
  now apply (merge_all_settled rows Hgood t).
Qed.

End Merge.

(** ** The rows [load_upsert] sends *)

Lemma scalar_eqb_refl (v : scalar) : scalar_eqb v v = true.
Proof.
  destruct v; simpl; auto using Bool.eqb_reflx, Z.eqb_refl, String.eqb_refl.
Qed.

Lemma sql_eq_refl (v : scalar) : v <> SNone -> sql_eq v v = true.
Proof.
  intros H. destruct v as [|b|n|s]; [congruence| | |];
    [exact (scalar_eqb_refl (SBool b))
    |exact (scalar_eqb_refl (SNum n))
    |exact (scalar_eqb_refl (SStr s))].
Qed.

Lemma carries_key_spec rec :
  carries_key rec = true ->
  In "uuid" (Dict.keys (flatten_json rec "" "_"))
  /\ dict_get (flatten_json rec "" "_") "uuid" <> SNone.
Proof.
  unfold carries_key, dict_get.
  destruct (Dict.lookup (flatten_json rec "" "_") "uuid") as [v|] eqn:E;
    [|discriminate].
  intros Hv. split.
  - destruct (in_dec string_dec "uuid" (Dict.keys (flatten_json rec "" "_")))
      as [Hin|Hn]; [assumption|].
    rewrite (lookup_notin _ _ Hn) in E. discriminate.
  - destruct v; congruence.
Qed.

Lemma uuid_in_columns first_rec :
  carries_key first_rec = true -> In "uuid" (infer_columns first_rec).
Proof.
  intros H. apply carries_key_spec in H as [Hin _].
  unfold infer_columns, sorted.
  eapply Permutation_in; [apply StringSort.Permuted_sort|exact Hin].
Qed.

Lemma combine_map_pair (g : string -> scalar) (l : list string) :
  combine l (map g l) = map (fun c => (c, g c)) l.
Proof. induction l; simpl; congruence. Qed.

Lemma dict_get_map_pair (g : string -> scalar) (l : list string) c :
  In c l -> dict_get (map (fun c => (c, g c)) l) c = g c.
Proof. intros H. unfold dict_get. now rewrite lookup_map_in. Qed.

Lemma merge_update_NoDup cfg columns :
  NoDup columns -> NoDup (merge_update (merge_sql cfg columns)).
Proof. intros H. simpl. now apply NoDup_filter. Qed.

Lemma merge_update_no_key cfg columns :
  ~ In (fst (merge_on (merge_sql cfg columns)))
       (merge_update (merge_sql cfg columns)).
Proof. simpl fst. rewrite merge_update_spec. intros [_ H]. now apply H. Qed.

Lemma project_row_good cfg columns rec :
  NoDup columns -> In "uuid" columns -> carries_key rec = true ->
  good_row (merge_sql cfg columns) (project_row columns rec).
Proof.
  intros Hnd Hid Hkey. unfold good_row, project_row.
  rewrite (project_map _ _ Hnd).
  set (g := dict_get (flatten_json rec "" "_")).
  repeat split.
  - unfold inserted_row. simpl.
    rewrite (map_ext_in _ g); [apply combine_map_pair|].
    intros c Hc. now apply dict_get_map_pair.
  - intros c Hc. apply merge_update_spec in Hc as [Hc _].
    now rewrite keys_map_pair.
  - unfold merge_matches. simpl. rewrite dict_get_map_pair by assumption.
    apply sql_eq_refl. now apply carries_key_spec.
Qed.

(** The sink accepts the merge of a projected row once [uuid] is a
    column. *)
Lemma run_merge_project cfg columns rec t :
  NoDup columns -> In "uuid" columns ->
  run_merge (merge_sql cfg columns) (project_row columns rec) t
  = Some (merge_rows (merge_sql cfg columns) (project_row columns rec) t).
Proof.
  intros Hnd Hid. unfold run_merge.
  change (merge_select (merge_sql cfg columns)) with columns.
  now rewrite (bind_params_project _ _ Hnd).
Qed.

Lemma upsert_loop_run cfg columns :
  NoDup columns -> In "uuid" columns ->
  forall recs w t,
    snow_table w = Some t ->
    for_each recs tt (upsert_step cfg columns) w
    = (Ret tt,
       {| snow_table :=
            Some (merge_all (merge_sql cfg columns)
                    (map (project_row columns) recs) t);
          calls :=
            calls w
              ++ map (fun rec => Execute (MergeInto (merge_sql cfg columns))
                                   (project_row columns rec)) recs;
          warnings := warnings w |}).
Proof.
  intros Hnd Hid.
  induction recs as [|rec rest IH]; intros w t Ht.
  - destruct w as [tb cs ws]. simpl in *. subst tb.
    unfold ret. now rewrite app_nil_r.
  - simpl for_each. unfold bind at 1. unfold upsert_step at 1.
    cbn zeta. fold (project_row columns rec).
    unfold cur_execute.
    cbn [run_statement record snow_table calls warnings].
    rewrite Ht. cbn [option_map].
    rewrite (run_merge_project cfg columns rec t Hnd Hid).
    cbn [option_map].
    rewrite (IH _ (merge_rows (merge_sql cfg columns)
                     (project_row columns rec) t)) by reflexivity.
    unfold with_table, record. cbn [snow_table calls warnings map].
    f_equal. f_equal. rewrite <- app_assoc. reflexivity.
Qed.

Lemma load_upsert_unfold cfg first_rec rest :
  load_upsert cfg (first_rec :: rest)
  = (ensure_table cfg ;;
     for_each (first_rec :: rest) tt
       (upsert_step cfg (infer_columns first_rec)) ;;
     conn_commit ;;
     cur_close).
Proof. reflexivity. Qed.

(** An upsert over records that carry their key always returns; this is the
    state it leaves. *)
Lemma load_upsert_run cfg first_rec rest w :
  carries_key first_rec = true ->
  load_upsert cfg (first_rec :: rest) w
  = (Ret tt,
     {| snow_table :=
          Some (merge_all (merge_sql cfg (infer_columns first_rec))
                  (upsert_rows (first_rec :: rest))
                  (rows_of (snow_table w)));
        calls :=
          calls w
            ++ Execute (CREATE_TABLE_DDL cfg) []
            :: map (fun rec =>
                      Execute (MergeInto
                                 (merge_sql cfg (infer_columns first_rec)))
                        (project_row (infer_columns first_rec) rec))
                 (first_rec :: rest)
            ++ [Commit; CursorClose];
        warnings := warnings w |}).
Proof.
  intros Hkey. rewrite load_upsert_unfold.
  pose proof (infer_columns_NoDup first_rec) as Hnd.
  pose proof (uuid_in_columns first_rec Hkey) as Hid.
  unfold upsert_rows.
  set (columns := infer_columns first_rec) in *.
  unfold bind at 1. unfold ensure_table, cur_execute.
  cbn [run_statement CREATE_TABLE_DDL record snow_table with_table calls
       warnings].
  unfold bind at 1.
  rewrite (upsert_loop_run cfg columns Hnd Hid _ _ (rows_of (snow_table w)));
    [|destruct (snow_table w); reflexivity].
  unfold bind, conn_commit, cur_close, record, with_table.
  cbn [snow_table calls warnings].
  f_equal. f_equal. rewrite <- !app_assoc. reflexivity.
Qed.

(** C8: over an unchanged source in which every record carries its key
    column (a [uuid] that is not null), the upsert load returns, and running
    it a second time returns as well and leaves the relation exactly as the
    first run left it, whatever the relation held before. *)
Theorem upsert_idempotent (cfg : config) (scan_dynamodb : list json)
  (w : world) :
  Forall (fun rec => carries_key rec = true) scan_dynamodb ->
  fst (load_upsert cfg scan_dynamodb w) = Ret tt
  /\ fst (load_upsert cfg scan_dynamodb
            (snd (load_upsert cfg scan_dynamodb w))) = Ret tt
  /\ snow_table (snd (load_upsert cfg scan_dynamodb
                        (snd (load_upsert cfg scan_dynamodb w))))
     = snow_table (snd (load_upsert cfg scan_dynamodb w)).
Proof.
  intros Hkeys. destruct scan_dynamodb as [|first_rec rest].
  - repeat split. cbn. now destruct (snow_table w).
  - pose proof Hkeys as Hall.
    apply Forall_cons_iff in Hkeys as [Hkey _].
    rewrite (load_upsert_run cfg first_rec rest w Hkey). cbn [fst snd].
    rewrite (load_upsert_run cfg first_rec rest _ Hkey).
    cbn [fst snd snow_table rows_of].
    repeat split. f_equal.
    pose proof (infer_columns_NoDup first_rec) as Hnd.
    pose proof (uuid_in_columns first_rec Hkey) as Hid.
    apply merge_all_idempotent.
    + now apply merge_update_NoDup.
    + apply merge_update_no_key.
    + unfold upsert_rows. apply Forall_forall. intros row Hin.
      apply in_map_iff in Hin as (rec & <- & Hrec).
      rewrite Forall_forall in Hall.
      apply project_row_good; auto.
Qed.

Lemma upsert_idempotent_witness :
  snow_table
    (snd (load_upsert cfg_example [record_a; record_b]
            (snd (load_upsert cfg_example [record_a; record_b]
                    world_with_old_row))))
  = snow_table
      (snd (load_upsert cfg_example [record_a; record_b] world_with_old_row)).
Proof.
  apply (upsert_idempotent cfg_example [record_a; record_b]
           world_with_old_row).
  repeat constructor.
Defined.

(** Outside the hypothesis of C8: a null key matches nothing, itself
    included, so every run inserts the record again. *)
Lemma upsert_null_key_grows :
  snow_table (snd (load_upsert cfg_example [record_null_key] world0))
    = Some [[("uuid", SNone); ("v", SNum 1)]]
  /\ snow_table
       (snd (load_upsert cfg_example [record_null_key]
               (snd (load_upsert cfg_example [record_null_key] world0))))
     = Some [[("uuid", SNone); ("v", SNum 1)];
             [("uuid", SNone); ("v", SNum 1)]].
Proof. split; reflexivity. Qed.

(** * More on the flattener *)

Lemma map_flat_map {A B C} (f : B -> C) (g : A -> list B) (l : list A) :
  map f (flat_map g l) = flat_map (fun x => map f (g x)) l.
Proof.
  induction l as [|x l IH]; simpl; [reflexivity|].
  now rewrite map_app, IH.
Qed.

Lemma flat_entries_child p sep seg (ps : list (list string * scalar)) :
  map (fun pv => (extend p sep (fst pv), snd pv)) (map (prepend seg) ps)
  = map (fun pv => (extend (new_key p sep seg) sep (fst pv), snd pv)) ps.
Proof. rewrite map_map. reflexivity. Qed.

Lemma flat_entries_map p sep kvs :
  flat_entries p sep (JMap kvs)
  = flat_map (fun kv => flat_entries (new_key p sep (fst kv)) sep (snd kv))
      kvs.
Proof.
  unfold flat_entries. simpl paths. rewrite map_flat_map.
  induction kvs as [|kv r IH]; simpl; [reflexivity|].
  now rewrite flat_entries_child, IH.
Qed.

(** Entries of the elements of a list from index [idx] on. *)
Lemma flat_entries_index p sep vs : forall idx,
  map (fun pv => (extend p sep (fst pv), snd pv))
    (index_paths idx (map paths vs))
  = List.concat
      (map (fun iv => flat_entries (new_key p sep (str_of_nat (fst iv))) sep
                        (snd iv))
         (combine (seq idx (List.length vs)) vs)).
Proof.
  induction vs as [|v r IH]; intros idx; simpl; [reflexivity|].
  rewrite map_app, flat_entries_child, IH. reflexivity.
Qed.

Lemma in_setitem (d : Dict.t scalar) k v e :
  In e (Dict.setitem d k v) -> In e d \/ e = (k, v).
Proof.
  induction d as [|[k' v'] r IH]; simpl.
  - intros [<-|[]]. now right.
  - destruct (String.eqb_spec k' k) as [->|Hne]; simpl.
    + intros [<-|H]; [now right|left; now right].
    + intros [<-|H]; [left; now left|].
      destruct (IH H) as [H'|H']; [left; now right|now right].
Qed.

Lemma in_update (d o : Dict.t scalar) e :
  In e (Dict.update d o) -> In e d \/ In e o.
Proof.
  unfold Dict.update. revert d.
  induction o as [|[k v] r IH]; simpl; intros d H; [now left|].
  destruct (IH _ H) as [H'|H']; [|right; now right].
  destruct (in_setitem _ _ _ _ H') as [H''| ->]; [now left|right; now left].
Qed.

Lemma map_loop_sound p sep kvs :
  Forall (fun kv => entries_sound_at sep (snd kv)) kvs ->
  forall items e,
    In e (fold_left (map_step p sep) kvs items) ->
    In e items
    \/ In e (flat_map
               (fun kv => flat_entries (new_key p sep (fst kv)) sep (snd kv))
               kvs).
Proof.
  induction 1 as [|kv r Hkv _ IH]; simpl; intros items e Hin; [now left|].
  destruct (IH _ _ Hin) as [H|H].
  - unfold map_step in H. destruct (in_update _ _ _ H) as [H'|H'].
    + now left.
    + right. apply in_app_iff. left. now apply Hkv.
  - right. apply in_app_iff. now right.
Qed.

Lemma list_loop_sound p sep vs :
  Forall (entries_sound_at sep) vs ->
  forall st e,
    In e (snd (fold_left (list_step p sep) vs st)) ->
    In e (snd st)
    \/ In e (List.concat
               (map (fun iv =>
                       flat_entries (new_key p sep (str_of_nat (fst iv))) sep
                         (snd iv))
                  (combine (seq (fst st) (List.length vs)) vs))).
Proof.
  induction 1 as [|v r Hv _ IH]; simpl; intros st e Hin; [now left|].
  destruct (IH _ _ Hin) as [H|H].
  - simpl in H. destruct (in_update _ _ _ H) as [H'|H'].
    + now left.
    + right. apply in_app_iff. left. now apply Hv.
  - right. apply in_app_iff. now right.
Qed.

Lemma flatten_entries_sound sep data : entries_sound_at sep data.
Proof.
  induction data as [x|vs IH|kvs IH] using json_ind; intros q e Hin.
  - exact Hin.
  - rewrite flatten_json_list in Hin.
    destruct (list_loop_sound q sep vs IH _ _ Hin) as [[]|H].
    unfold flat_entries. simpl paths. now rewrite flat_entries_index.
  - rewrite flatten_json_map in Hin.
    destruct (map_loop_sound q sep kvs IH _ _ Hin) as [[]|H].
    now rewrite flat_entries_map.
Qed.

Lemma keys_app {V} (a b : Dict.t V) :
  Dict.keys (a ++ b) = Dict.keys a ++ Dict.keys b.
Proof. apply map_app. Qed.

Lemma map_loop_complete_keys p sep kvs :
  Forall (fun kv => keys_complete_at sep (snd kv)) kvs ->
  forall items key,
    In key (Dict.keys items)
    \/ In key (Dict.keys
                 (flat_map
                    (fun kv => flat_entries (new_key p sep (fst kv)) sep
                                 (snd kv)) kvs)) ->
    In key (Dict.keys (fold_left (map_step p sep) kvs items)).
Proof.
  induction 1 as [|kv r Hkv _ IH]; simpl; intros items key Hin.
  - destruct Hin as [H|[]]. exact H.
  - apply IH. rewrite keys_app, in_app_iff in Hin.
    unfold map_step. rewrite keys_update.
    destruct Hin as [H|[H|H]]; [left; now left| |now right].
    left. right. now apply Hkv.
Qed.

Lemma list_loop_complete_keys p sep vs :
  Forall (keys_complete_at sep) vs ->
  forall st key,
    In key (Dict.keys (snd st))
    \/ In key (Dict.keys
                 (List.concat
                    (map (fun iv =>
                            flat_entries
                              (new_key p sep (str_of_nat (fst iv))) sep
                              (snd iv))
                       (combine (seq (fst st) (List.length vs)) vs)))) ->
    In key (Dict.keys (snd (fold_left (list_step p sep) vs st))).
Proof.
  induction 1 as [|v r Hv _ IH]; simpl; intros st key Hin.
  - destruct Hin as [H|[]]. exact H.
  - apply IH. rewrite keys_app, in_app_iff in Hin.
    simpl. rewrite keys_update.
    destruct Hin as [H|[H|H]]; [left; now left| |now right].
    left. right. now apply Hv.
Qed.

Lemma flatten_keys_complete sep data : keys_complete_at sep data.
Proof.
  induction data as [x|vs IH|kvs IH] using json_ind; intros q key Hin.
  - exact Hin.
  - rewrite flatten_json_list. apply list_loop_complete_keys; [exact IH|].
    right. unfold flat_entries in Hin. simpl paths in Hin.
    now rewrite flat_entries_index in Hin.
  - rewrite flatten_json_map. apply map_loop_complete_keys; [exact IH|].
    right. now rewrite flat_entries_map in Hin.
Qed.

Lemma map_loop_entries c p kvs :
  NoDup (map fst kvs) ->
  Forall (fun kv => clean_key c (fst kv) = true) kvs ->
  Forall (fun kv => entries_exact_at c (snd kv)) kvs ->
  forall items,
    (forall key kv, In key (Dict.keys items) -> In kv kvs ->
       ~ under (new_key p (String c "") (fst kv)) (String c "") key) ->
    fold_left (map_step p (String c "")) kvs items
    = items
        ++ flat_map
             (fun kv => flat_entries (new_key p (String c "") (fst kv))
                          (String c "") (snd kv)) kvs.
Proof.
  induction kvs as [|kv r IH]; simpl; intros Hnd Hclean Hex items Hfresh.
  - now rewrite app_nil_r.
  - inversion Hnd as [|? ? Hn Hr]; subst.
    apply Forall_cons_iff in Hclean as [Hk Hcr].
    apply Forall_cons_iff in Hex as [He Her].
    apply clean_key_spec in Hk as [Hk1 Hk2].
    set (q := new_key p (String c "") (fst kv)) in *.
    assert (Hq : q <> "") by (apply new_key_nonempty; now right).
    assert (Happ : map_step p (String c "") items kv
                   = items ++ flatten_json (snd kv) q (String c "")).
    { unfold map_step. apply update_disjoint.
      - apply flatten_keys_NoDup.
      - intros x Hx Hin. apply (Hfresh x kv Hin); [now left|].
        exact (flatten_keys_under _ _ q x Hq Hx). }
    rewrite Happ, IH; try assumption.
    + rewrite (He q), <- app_assoc. reflexivity.
    + intros key kv' Hin Hkv' U'.
      rewrite keys_app, in_app_iff in Hin.
      destruct Hin as [Hin|Hin].
      * apply (Hfresh key kv' Hin); [now right|assumption].
      * apply (flatten_keys_under _ _ q key Hq) in Hin.
        rewrite Forall_forall in Hcr.
        destruct (clean_key_spec c _ (Hcr kv' Hkv')) as [_ Hc'].
        apply (siblings_disjoint c p (fst kv) (fst kv') key); try assumption.
        intros E. apply Hn. rewrite E. now apply in_map.
Qed.

Lemma list_loop_entries c p vs :
  is_digit c = false ->
  Forall (entries_exact_at c) vs ->
  forall st,
    (forall key j, In key (Dict.keys (snd st)) -> fst st <= j ->
       ~ under (new_key p (String c "") (str_of_nat j)) (String c "") key) ->
    snd (fold_left (list_step p (String c "")) vs st)
    = snd st
        ++ List.concat
             (map (fun iv =>
                     flat_entries
                       (new_key p (String c "") (str_of_nat (fst iv)))
                       (String c "") (snd iv))
                (combine (seq (fst st) (List.length vs)) vs)).
Proof.
  intros Hc. induction 1 as [|v r He _ IH]; simpl; intros st Hfresh.
  - now rewrite app_nil_r.
  - set (q := new_key p (String c "") (str_of_nat (fst st))) in *.
    assert (Hq : q <> "").
    { apply new_key_nonempty. right. apply str_of_nat_nonempty. }
    assert (Happ : Dict.update (snd st) (flatten_json v q (String c ""))
                   = snd st ++ flatten_json v q (String c "")).
    { apply update_disjoint.
      - apply flatten_keys_NoDup.
      - intros x Hx Hin. apply (Hfresh x (fst st) Hin); [lia|].
        exact (flatten_keys_under _ _ q x Hq Hx). }
    assert (Hstep : list_step p (String c "") st v
                    = (S (fst st), snd st ++ flatten_json v q (String c ""))).
    { unfold list_step. fold q. now rewrite Happ. }
    rewrite Hstep, IH; cbn [fst snd].
    + rewrite (He q), <- app_assoc. reflexivity.
    + intros key j Hin Hj U'.
      rewrite keys_app, in_app_iff in Hin.
      destruct Hin as [Hin|Hin].
      * apply (Hfresh key j Hin); [lia|assumption].
      * apply (flatten_keys_under _ _ q key Hq) in Hin.
        apply (siblings_disjoint c p (str_of_nat (fst st)) (str_of_nat j) key);
          try assumption; try (now apply str_of_nat_clean).
        intros E. apply str_of_nat_inj in E. lia.
Qed.

Lemma flatten_entries_exact (c : ascii) (data : json) :
  is_digit c = false ->
  unique_keys data = true -> clean_keys c data = true ->
  entries_exact_at c data.
Proof.
  intros Hc.
  induction data as [x|vs IH|kvs IH] using json_ind; intros Hu Hk q.
  - reflexivity.
  - rewrite flatten_json_list. simpl in Hu, Hk.
    rewrite forallb_forall in Hu, Hk. rewrite Forall_forall in IH.
    rewrite list_loop_entries; [|assumption| |intros ? ? []].
    + unfold flat_entries. simpl paths. now rewrite flat_entries_index.
    + apply Forall_forall. intros v Hv. apply IH; auto.
  - rewrite flatten_json_map. simpl in Hu, Hk.
    apply andb_true_iff in Hu as [Hnd Hu]. apply distinct_NoDup in Hnd.
    rewrite forallb_forall in Hu, Hk. rewrite Forall_forall in IH.
    rewrite map_loop_entries; [|assumption| | |intros ? ? []].
    + now rewrite flat_entries_map.
    + apply Forall_forall. intros kv Hkv.
      specialize (Hk kv Hkv). now apply andb_true_iff in Hk as [].
    + apply Forall_forall. intros kv Hkv. apply IH; auto.
      specialize (Hk kv Hkv). now apply andb_true_iff in Hk as [].
Qed.

(** X1: for every record, prefix and separator the FlatRecord has at most
    one entry per scalar leaf; collisions can only lose entries. *)
Theorem flatten_entries_at_most_leaves (r : json) (prefix sep : string) :
  List.length (flatten_json r prefix sep) <= leaves r
  /\ List.length (paths r) = leaves r.
Proof.
  split; [apply flatten_size_le_leaves|].
  induction r as [x|vs IH|kvs IH] using json_ind; simpl.
  - reflexivity.
  - generalize 0. induction IH as [|v r Hv _ IHr]; intros idx; simpl;
      [reflexivity|].
    now rewrite length_app, length_map, Hv, IHr.
  - induction IH as [|kv r Hkv _ IHr]; simpl; [reflexivity|].
    now rewrite length_app, length_map, Hkv, IHr.
Qed.

(** X2: a record without any scalar leaf, however deeply its empty
    mappings and lists are nested, flattens to the empty FlatRecord. *)
Theorem flatten_leafless_is_empty (r : json) (prefix sep : string) :
  leaves r = 0 -> flatten_json r prefix sep = [].
Proof.
  intros H. pose proof (flatten_size_le_leaves r prefix sep) as Hle.
  destruct (flatten_json r prefix sep); [reflexivity|simpl in Hle; lia].
Qed.

Lemma flatten_leafless_is_empty_witness :
  flatten_json (JMap [("a", JList [JMap []; JList []]); ("b", JMap [])])
    "" "_" = [].
Proof.
  apply (flatten_leafless_is_empty
           (JMap [("a", JList [JMap []; JList []]); ("b", JMap [])]) "" "_").
  reflexivity.
Defined.

(** X3: called with a non-empty prefix, the flattener returns only keys that
    are the prefix itself or the prefix, the separator and a rest. *)
Theorem flatten_keys_extend_prefix (r : json) (prefix sep key : string) :
  prefix <> "" ->
  In key (Dict.keys (flatten_json r prefix sep)) ->
  key = prefix \/ exists rest, key = (prefix ++ sep ++ rest)%string.
Proof. intros Hp Hin. exact (flatten_keys_under sep r prefix key Hp Hin). Qed.

Lemma flatten_keys_extend_prefix_witness :
  "x_a" = "x" \/ exists rest, "x_a" = ("x" ++ "_" ++ rest)%string.
Proof.
  apply (flatten_keys_extend_prefix (JMap [("a", JLeaf (SNum 1))]) "x" "_").
  - discriminate.
  - simpl. left. reflexivity.
Defined.

(** X4: every entry of the FlatRecord comes from a leaf: its value is the
    value of a leaf of the record and its key is the key built along that
    leaf's path.  The flattener invents no key and no value. *)
Theorem flatten_entries_from_leaves (r : json) (prefix sep key : string)
  (v : scalar) :
  In (key, v) (flatten_json r prefix sep) ->
  exists path, In (path, v) (paths r) /\ key = extend prefix sep path.
Proof.
  intros Hin. apply flatten_entries_sound in Hin.
  unfold flat_entries in Hin. apply in_map_iff in Hin as ([path v'] & E & Hp).
  simpl in E. injection E as <- <-. eauto.
Qed.

Lemma flatten_entries_from_leaves_witness :
  exists path,
    In (path, SNum 2)
      (paths (JMap [("x", JList [JMap [("y", JLeaf (SNum 2))]])]))
    /\ "x_0_y" = extend "" "_" path.
Proof.
  apply (flatten_entries_from_leaves
           (JMap [("x", JList [JMap [("y", JLeaf (SNum 2))]])]) "" "_").
  simpl. left. reflexivity.
Defined.

(** X5: the keys of the FlatRecord are exactly the keys built along the
    paths of the leaves: no leaf's key is missing, whatever collides. *)
Theorem flatten_keys_are_path_keys (r : json) (prefix sep key : string) :
  In key (Dict.keys (flatten_json r prefix sep))
  <-> exists pv, In pv (paths r) /\ key = extend prefix sep (fst pv).
Proof.
  split.
  - intros Hin. unfold Dict.keys in Hin.
    apply in_map_iff in Hin as ([k v] & <- & Hin).
    apply flatten_entries_sound in Hin. unfold flat_entries in Hin.
    apply in_map_iff in Hin as (pv & E & Hp). injection E as <- _. eauto.
  - intros (pv & Hp & ->). apply flatten_keys_complete.
    unfold Dict.keys, flat_entries. rewrite map_map. simpl.
    apply in_map_iff. eauto.
Qed.

(** X6: when the mappings have distinct keys, no key is empty or contains
    the separator, and the separator is one character that is not a digit,
    the FlatRecord lists the leaves in visiting order, each under the key
    built along its path: nothing is lost and nothing overwritten. *)
Theorem flatten_is_leaf_listing (r : json) (c : ascii) (prefix : string) :
  is_digit c = false ->
  unique_keys r = true ->
  clean_keys c r = true ->
  flatten_json r prefix (String c "")
  = map (fun pv => (extend prefix (String c "") (fst pv), snd pv)) (paths r).
Proof. intros Hc Hu Hk. exact (flatten_entries_exact c r Hc Hu Hk prefix). Qed.

Lemma flatten_is_leaf_listing_witness :
  flatten_json
    (JMap [("a", JLeaf (SNum 1));
           ("b", JList [JLeaf SNone; JMap [("c", JLeaf (SStr "x"))]])])
    "" "_"
  = [("a", SNum 1); ("b_0", SNone); ("b_1_c", SStr "x")].
Proof.
  apply (flatten_is_leaf_listing
           (JMap [("a", JLeaf (SNum 1));
                  ("b", JList [JLeaf SNone; JMap [("c", JLeaf (SStr "x"))]])])
           "_"%char ""); reflexivity.
Defined.

Lemma flat_mapping_loop sep (d : Dict.t scalar) : forall items,
  NoDup (Dict.keys items ++ Dict.keys d) ->
  fold_left (map_step "" sep) (map (fun kv => (fst kv, JLeaf (snd kv))) d)
    items
  = items ++ d.
Proof.
  induction d as [|[k v] d IH]; simpl; intros items Hnd.
  - now rewrite app_nil_r.
  - assert (Hk : ~ In k (Dict.keys items)).
    { intros Hin. apply NoDup_remove_2 in Hnd. apply Hnd.
      apply in_app_iff. now left. }
    assert (Hstep : map_step "" sep items (k, JLeaf v) = items ++ [(k, v)]).
    { unfold map_step. simpl. unfold Dict.update. simpl.
      now apply setitem_notin. }
    rewrite Hstep, IH; [now rewrite <- app_assoc|].
    rewrite keys_app. simpl. rewrite <- app_assoc. simpl.
    apply NoDup_Add with (a := k) (l := Dict.keys items ++ Dict.keys d).
    + apply Add_app.
    + split; [now apply NoDup_remove_1 in Hnd|now apply NoDup_remove_2 in Hnd].
Qed.

(** X7: a record that is already flat (a mapping of scalars with distinct
    keys) is returned unchanged by the root call, keys in their order, for
    every separator. *)
Theorem flatten_flat_mapping_unchanged (d : Dict.t scalar) (sep : string) :
  NoDup (Dict.keys d) ->
  flatten_json (flat_mapping d) "" sep = d.
Proof.
  intros Hnd. unfold flat_mapping. rewrite flatten_json_map.
  now rewrite flat_mapping_loop.
Qed.

Lemma flatten_flat_mapping_unchanged_witness :
  flatten_json (flat_mapping [("uuid", SStr "a"); ("a_b", SNum 1); ("", SNone)])
    "" "_"
  = [("uuid", SStr "a"); ("a_b", SNum 1); ("", SNone)].
Proof.
  apply (flatten_flat_mapping_unchanged
           [("uuid", SStr "a"); ("a_b", SNum 1); ("", SNone)] "_").
  repeat constructor; simpl; intuition discriminate.
Defined.

Lemma indexed_loop sep (xs : list scalar) : forall st,
  (forall j, fst st <= j -> ~ In (str_of_nat j) (Dict.keys (snd st))) ->
  snd (fold_left (list_step "" sep) (map JLeaf xs) st)
  = snd st ++ indexed (fst st) xs.
Proof.
  induction xs as [|x xs IH]; simpl; intros st Hfresh.
  - unfold indexed. simpl. now rewrite app_nil_r.
  - assert (Hstep : list_step "" sep st (JLeaf x)
                    = (S (fst st), snd st ++ [(str_of_nat (fst st), x)])).
    { unfold list_step. simpl. unfold Dict.update. simpl. f_equal.
      apply setitem_notin. apply Hfresh. lia. }
    rewrite Hstep, IH; cbn [fst snd].
    + unfold indexed. simpl. now rewrite <- app_assoc.
    + intros j Hj. rewrite keys_app, in_app_iff. simpl.
      intros [Hin|[E|[]]].
      * apply (Hfresh j); [lia|assumption].
      * apply str_of_nat_inj in E. lia.
Qed.

(** X8: a top-level list of scalars flattens to its elements under the
    keys "0", "1", ... in order; at the root no separator is put before the
    index. *)
Theorem flatten_scalar_list (xs : list scalar) (sep : string) :
  flatten_json (JList (map JLeaf xs)) "" sep
  = combine (map str_of_nat (seq 0 (List.length xs))) xs.
Proof.
  rewrite flatten_json_list.
  rewrite (indexed_loop sep xs (0, [])); [reflexivity|].
  intros j _ [].
Qed.

(** * More on the columns *)

Lemma ascii_compare_trans_lt (x y z : ascii) :
  Ascii.compare x y = Lt -> Ascii.compare y z = Lt -> Ascii.compare x z = Lt.
Proof.
  unfold Ascii.compare. rewrite !N.compare_lt_iff. lia.
Qed.

Lemma le_str_trans (a b c : string) : le_str a b -> le_str b c -> le_str a c.
Proof.
  unfold le_str, String.leb. revert b c.
  induction a as [|x a IH]; intros [|y b] [|z c]; simpl; try congruence.
  destruct (Ascii.compare x y) eqn:Exy; try congruence;
    destruct (Ascii.compare y z) eqn:Eyz; try congruence.
  - apply Ascii.compare_eq_iff in Exy, Eyz. subst.
    assert (E : Ascii.compare z z = Eq)
      by (unfold Ascii.compare; apply N.compare_refl).
    rewrite E. apply IH.
  - apply Ascii.compare_eq_iff in Exy. subst. now rewrite Eyz.
  - apply Ascii.compare_eq_iff in Eyz. subst. now rewrite Exy.
  - now rewrite (ascii_compare_trans_lt x y z Exy Eyz).
Qed.

Lemma sorted_StronglySorted (l : list string) : StronglySorted le_str (sorted l).
Proof.
  unfold sorted. apply Sorted_StronglySorted.
  - intros a b c. apply le_str_trans.
  - apply StringSort.Sorted_sort.
Qed.

(** Two ascending lists with the same elements are the same list. *)
Lemma StronglySorted_unique (l1 : list string) : forall l2,
  StronglySorted le_str l1 -> StronglySorted le_str l2 ->
  Permutation l1 l2 -> l1 = l2.
Proof.
  induction l1 as [|a l1 IH]; intros l2 H1 H2 HP.
  - apply Permutation_nil in HP. now subst.
  - destruct l2 as [|b l2].
    + apply Permutation_sym, Permutation_nil in HP. discriminate.
    + apply StronglySorted_inv in H1 as [H1 Ha].
      apply StronglySorted_inv in H2 as [H2 Hb].
      rewrite Forall_forall in Ha, Hb.
      assert (E : a = b).
      { assert (Hab : In a (b :: l2))
          by (eapply Permutation_in; [exact HP|now left]).
        assert (Hba : In b (a :: l1))
          by (eapply Permutation_in;
              [apply Permutation_sym; exact HP|now left]).
        destruct Hab as [->|Hab]; [reflexivity|].
        destruct Hba as [->|Hba]; [reflexivity|].
        apply String.leb_antisym; [apply Ha|apply Hb]; assumption. }
      subst b. f_equal. apply IH; try assumption.
      now apply Permutation_cons_inv in HP.
Qed.

(** X9: the columns inferred from a sample are exactly the keys of its flat
    record, each once, in ascending order: every earlier column is below
    every later one. *)
Theorem infer_columns_sorted_keys (sample : json) :
  Permutation (Dict.keys (flatten_json sample "" "_")) (infer_columns sample)
  /\ NoDup (infer_columns sample)
  /\ StronglySorted le_str (infer_columns sample).
Proof.
  split; [apply StringSort.Permuted_sort|].
  split; [apply infer_columns_NoDup|apply sorted_StronglySorted].
Qed.

(** X10: the columns do not depend on the order in which the sample lists
    its attributes: two samples whose flat records have the same keys, in
    any order and with any values, give the same columns. *)
Theorem infer_columns_order_independent (r1 r2 : json) :
  Permutation (Dict.keys (flatten_json r1 "" "_"))
    (Dict.keys (flatten_json r2 "" "_")) ->
  infer_columns r1 = infer_columns r2.
Proof.
  intros HP. apply StronglySorted_unique; try apply sorted_StronglySorted.
  unfold infer_columns, sorted.
  eapply Permutation_trans;
    [apply Permutation_sym, StringSort.Permuted_sort|].
  eapply Permutation_trans; [exact HP|apply StringSort.Permuted_sort].
Qed.

Lemma infer_columns_order_independent_witness :
  infer_columns (JMap [("b", JLeaf (SNum 1)); ("a", JLeaf (SNum 2))])
  = infer_columns (JMap [("a", JLeaf SNone); ("b", JLeaf (SStr "x"))]).
Proof.
  apply (infer_columns_order_independent
           (JMap [("b", JLeaf (SNum 1)); ("a", JLeaf (SNum 2))])
           (JMap [("a", JLeaf SNone); ("b", JLeaf (SStr "x"))])).
  simpl. apply perm_swap.
Defined.

Lemma dict_self_map (d : Dict.t scalar) :
  NoDup (Dict.keys d) ->
  map (fun c => (c, dict_get d c)) (Dict.keys d) = d.
Proof.
  induction d as [|[k v] d IH]; simpl; intros Hnd; [reflexivity|].
  inversion Hnd as [|? ? Hn Hr]; subst.
  unfold dict_get at 1. simpl. rewrite String.eqb_refl. f_equal.
  rewrite <- (IH Hr) at 2. apply map_ext_in. intros c Hc.
  unfold dict_get. simpl.
  destruct (String.eqb_spec k c) as [->|_]; [contradiction|reflexivity].
Qed.

(** X11: projected on the columns inferred from itself, a record loses
    nothing: its row holds exactly the entries of its flat record, in column
    order. *)
Theorem sample_row_keeps_every_entry (sample : json) :
  Permutation (flatten_json sample "" "_")
    (project_row (infer_columns sample) sample)
  /\ Dict.keys (project_row (infer_columns sample) sample)
     = infer_columns sample.
Proof.
  unfold project_row.
  rewrite (project_map _ _ (infer_columns_NoDup sample)).
  split; [|apply keys_map_pair].
  rewrite <- (dict_self_map (flatten_json sample "" "_")) at 1
    by apply flatten_keys_NoDup.
  apply Permutation_map. apply StringSort.Permuted_sort.
Qed.

(** * More on the full refresh *)

Lemma truncate_rows_eq first_rec rest :
  truncate_rows (first_rec :: rest)
  = project_row (infer_columns first_rec) first_rec
      :: map (project_row (infer_columns first_rec)) (first_rec :: rest).
Proof. reflexivity. Qed.

(** X12: for every non-empty scan and every batch size, a full refresh
    returns and the rows it hands to the sink are, in order, the sample's
    row followed by the rows of all scanned records, the sample among them
    again: one row more than the scan has records. *)
Theorem full_refresh_rows_handed_over (cfg : config) (first_rec : json)
  (rest : list json) (w : world) :
  fst (load_truncate cfg (first_rec :: rest) w) = Ret tt
  /\ List.concat
       (batches (calls (snd (load_truncate cfg (first_rec :: rest) w))))
     = List.concat (batches (calls w))
         ++ project_row (infer_columns first_rec) first_rec
         :: map (project_row (infer_columns first_rec)) (first_rec :: rest).
Proof.
  split; [now rewrite load_truncate_run|].
  rewrite load_truncate_rows_written. now rewrite truncate_rows_eq.
Qed.

(** X13: a full refresh only appends: whatever the relation held before is
    still there afterwards, in place, followed by the rows of the run; a
    relation that did not exist is created. *)
Theorem full_refresh_only_appends (cfg : config) (first_rec : json)
  (rest : list json) (w : world) :
  snow_table (snd (load_truncate cfg (first_rec :: rest) w))
  = Some (rows_of (snow_table w)
            ++ project_row (infer_columns first_rec) first_rec
            :: map (project_row (infer_columns first_rec))
                 (first_rec :: rest)).
Proof. rewrite load_truncate_appends. now rewrite truncate_rows_eq. Qed.

Lemma chunk_rows_nonempty full : forall rows batch,
  Forall (fun b => b <> []) (fst (chunk_rows full batch rows)).
Proof.
  induction rows as [|row rest IH]; simpl; intros batch; [constructor|].
  destruct (full (batch ++ [row])); simpl; [|apply IH].
  constructor; [|apply IH]. destruct batch; discriminate.
Qed.

Lemma final_flush_nonempty (batch : list Row) :
  Forall (fun b => b <> []) (final_flush batch).
Proof.
  destruct batch; simpl; constructor; [discriminate|constructor].
Qed.

Lemma truncate_rows_shape first_rec rest row :
  In row (truncate_rows (first_rec :: rest)) ->
  Dict.keys row = infer_columns first_rec.
Proof.
  unfold truncate_rows. intros Hin.
  apply in_map_iff in Hin as (rec & <- & _).
  unfold project_row.
  rewrite (project_map _ _ (infer_columns_NoDup first_rec)).
  apply keys_map_pair.
Qed.

(** X14: whatever the batch size, a full refresh never hands over an empty
    batch, and every row of every batch has exactly the inferred columns, in
    their order. *)
Theorem full_refresh_batches_well_shaped (cfg : config) (first_rec : json)
  (rest : list json) (w : world) :
  exists new : list (list Row),
    batches (calls (snd (load_truncate cfg (first_rec :: rest) w)))
      = batches (calls w) ++ new
    /\ Forall (fun b => b <> []) new
    /\ Forall (Forall (fun row => Dict.keys row = infer_columns first_rec))
         new.
Proof.
  set (rows := truncate_rows (first_rec :: rest)).
  exists (fst (chunk_rows (batch_full cfg) [] rows)
          ++ final_flush (snd (chunk_rows (batch_full cfg) [] rows))).
  split; [apply load_truncate_batches|].
  split.
  - apply Forall_app. split;
      [apply chunk_rows_nonempty|apply final_flush_nonempty].
  - assert (Hcat : List.concat
                     (fst (chunk_rows (batch_full cfg) [] rows)
                      ++ final_flush (snd (chunk_rows (batch_full cfg) [] rows)))
                   = rows).
    { rewrite concat_app, concat_final_flush.
      apply (chunk_rows_concat (batch_full cfg) rows []). }
    apply Forall_forall. intros b Hb. apply Forall_forall. intros row Hrow.
    apply (truncate_rows_shape first_rec rest). fold rows. rewrite <- Hcat.
    apply in_concat. eauto.
Qed.

Lemma chunk_rows_always_full full :
  (forall b, full b = true) ->
  forall rows,
    chunk_rows full [] rows = (map (fun row => [row]) rows, []).
Proof.
  intros Hfull. induction rows as [|row rest IH]; simpl; [reflexivity|].
  now rewrite Hfull, IH.
Qed.

(** X15: with a batch size of zero or below the threshold test holds after
    every append, so each row is written and committed as a batch of its
    own and nothing is left for the final flush. *)
Theorem full_refresh_nonpositive_batch_size (cfg : config)
  (first_rec : json) (rest : list json) (w : world) :
  (BATCH_SIZE cfg <= 0)%Z ->
  batches (calls (snd (load_truncate cfg (first_rec :: rest) w)))
  = batches (calls w)
      ++ map (fun row => [row])
           (project_row (infer_columns first_rec) first_rec
            :: map (project_row (infer_columns first_rec))
                 (first_rec :: rest)).
Proof.
  intros Hle. rewrite load_truncate_batches, truncate_rows_eq.
  rewrite chunk_rows_always_full.
  - simpl. now rewrite app_nil_r.
  - intros b. unfold batch_full. apply Z.leb_le. lia.
Qed.

Lemma full_refresh_nonpositive_batch_size_witness :
  batches (calls (snd (load_truncate cfg_batch_of_zero [record_a; record_b]
                         world0)))
  = [[row_a]; [row_a]; [row_b]].
Proof.
  apply (full_refresh_nonpositive_batch_size cfg_batch_of_zero record_a
           [record_b] world0).
  discriminate.
Defined.

Lemma flush_calls_app st a b :
  flush_calls st (a ++ b) = flush_calls st a ++ flush_calls st b.
Proof. apply flat_map_app. Qed.

(** X16: the calls of a full refresh are: the create-if-absent statement,
    then for each batch one [executemany] of the one insert statement
    directly followed by a commit, then the closing of the cursor; nothing
    else reaches cursor or connection. *)
Theorem full_refresh_call_sequence (cfg : config) (first_rec : json)
  (rest : list json) (w : world) :
  exists new : list (list Row),
    batches (calls (snd (load_truncate cfg (first_rec :: rest) w)))
      = batches (calls w) ++ new
    /\ calls (snd (load_truncate cfg (first_rec :: rest) w))
       = calls w
           ++ Execute (CREATE_TABLE_DDL cfg) []
           :: flat_map
                (fun b =>
                   [ExecuteMany (insert_sql cfg (infer_columns first_rec)) b;
                    Commit]) new
           ++ [CursorClose].
Proof.
  exists (fst (chunk_rows (batch_full cfg) []
                 (truncate_rows (first_rec :: rest)))
          ++ final_flush (snd (chunk_rows (batch_full cfg) []
                                 (truncate_rows (first_rec :: rest))))).
  split; [apply load_truncate_batches|].
  rewrite load_truncate_run. cbn [snd calls].
  unfold flush_calls. now rewrite flat_map_app, <- app_assoc.
Qed.

(** * More on the upsert *)

(** ** What merges do to the rows already there *)

Lemma update_matched_unmatched m s r :
  merge_matches m s r = false -> update_matched m s r = r.
Proof. intros H. unfold update_matched. now rewrite H. Qed.

Lemma merge_rows_split m s t :
  merge_rows m s t = map (update_matched m s) t ++ inserted_if_new m s t.
Proof.
  unfold merge_rows, inserted_if_new.
  destruct (existsb (merge_matches m s) t) eqn:E.
  - now rewrite app_nil_r.
  - f_equal. rewrite <- (map_id t) at 1. apply map_ext_in. intros r Hr.
    symmetry. apply update_matched_unmatched.
    destruct (merge_matches m s r) eqn:Em; [|reflexivity].
    assert (existsb (merge_matches m s) t = true)
      by (apply existsb_exists; eauto).
    congruence.
Qed.

(** The rows already in the relation stay where they are; merges update
    them in place and add new rows behind them. *)
Lemma merge_all_prefix m rows : forall t,
  exists extra, merge_all m rows t = map (update_all m rows) t ++ extra.
Proof.
  induction rows as [|s rows IH]; intros t.
  - exists []. simpl. now rewrite map_id, app_nil_r.
  - change (merge_all m (s :: rows) t)
      with (merge_all m rows (merge_rows m s t)).
    destruct (IH (merge_rows m s t)) as [extra ->].
    rewrite merge_rows_split, map_app, map_map, <- app_assoc.
    eexists. reflexivity.
Qed.

Lemma update_all_unmatched m rows r :
  (forall s, In s rows -> merge_matches m s r = false) ->
  update_all m rows r = r.
Proof.
  unfold update_all. induction rows as [|s rows IH]; intros H; simpl;
    [reflexivity|].
  rewrite update_matched_unmatched by (apply H; now left).
  apply IH. intros s' Hs'. apply H. now right.
Qed.

Lemma dict_get_update_matched m s r :
  ~ In (fst (merge_on m)) (merge_update m) ->
  dict_get (update_matched m s r) (fst (merge_on m))
  = dict_get r (fst (merge_on m)).
Proof.
  intros Hk. unfold update_matched.
  destruct (merge_matches m s r); [|reflexivity].
  now apply dict_get_set_columns.
Qed.

Lemma dict_get_update_all m rows :
  ~ In (fst (merge_on m)) (merge_update m) ->
  forall r,
    dict_get (update_all m rows r) (fst (merge_on m))
    = dict_get r (fst (merge_on m)).
Proof.
  intros Hk. unfold update_all.
  induction rows as [|s rows IH]; intros r; simpl; [reflexivity|].
  now rewrite IH, dict_get_update_matched.
Qed.

Lemma project_row_key columns rec :
  NoDup columns -> In "uuid" columns ->
  dict_get (project_row columns rec) "uuid" = key_of rec.
Proof.
  intros Hnd Hid. unfold project_row, key_of.
  rewrite (project_map _ _ Hnd). now apply dict_get_map_pair.
Qed.

(** X17: an upsert whose sample carries its key never removes or moves a
    row that was in the relation: the row at each position is still at that
    position afterwards with the same [uuid], and it is left exactly as it
    was when its [uuid] equals the key of no scanned record. *)
Theorem upsert_keeps_existing_rows (cfg : config) (first_rec : json)
  (rest : list json) (w : world) (i : nat) (r : Row) :
  carries_key first_rec = true ->
  nth_error (rows_of (snow_table w)) i = Some r ->
  exists r',
    nth_error
      (rows_of (snow_table (snd (load_upsert cfg (first_rec :: rest) w)))) i
      = Some r'
    /\ dict_get r' "uuid" = dict_get r "uuid"
    /\ ((forall rec, In rec (first_rec :: rest) ->
           sql_eq (dict_get r "uuid") (key_of rec) = false) ->
        r' = r).
Proof.
  intros Hkey Hnth.
  pose proof (infer_columns_NoDup first_rec) as Hnd.
  pose proof (uuid_in_columns first_rec Hkey) as Hid.
  rewrite (load_upsert_run cfg first_rec rest w Hkey).
  cbn [snd snow_table rows_of].
  set (m := merge_sql cfg (infer_columns first_rec)).
  destruct (merge_all_prefix m (upsert_rows (first_rec :: rest))
              (rows_of (snow_table w))) as [extra ->].
  exists (update_all m (upsert_rows (first_rec :: rest)) r).
  split; [|split].
  - rewrite nth_error_app1
      by (rewrite length_map; apply nth_error_Some; congruence).
    now apply map_nth_error.
  - apply (dict_get_update_all m). apply merge_update_no_key.
  - intros Hno. apply update_all_unmatched. intros s Hs.
    unfold upsert_rows in Hs. apply in_map_iff in Hs as (rec & <- & Hrec).
    unfold merge_matches. simpl fst. simpl snd.
    rewrite (project_row_key _ _ Hnd Hid). now apply Hno.
Qed.

Lemma upsert_keeps_existing_rows_witness :
  exists r',
    nth_error
      (rows_of (snow_table (snd (load_upsert cfg_example
                                   [record_a; record_b]
                                   world_with_old_row)))) 0
      = Some r'
    /\ dict_get r' "uuid" = dict_get old_row "uuid"
    /\ ((forall rec, In rec [record_a; record_b] ->
           sql_eq (dict_get old_row "uuid") (key_of rec) = false) ->
        r' = old_row).
Proof.
  apply (upsert_keeps_existing_rows cfg_example record_a [record_b]
           world_with_old_row 0 old_row); reflexivity.
Defined.

Lemma scalar_eqb_eq (a b : scalar) : scalar_eqb a b = true -> a = b.
Proof.
  destruct a, b; simpl; try discriminate; intros H.
  - reflexivity.
  - f_equal. now apply Bool.eqb_prop.
  - f_equal. now apply Z.eqb_eq.
  - f_equal. now apply String.eqb_eq.
Qed.

Lemma sql_eq_eq (a b : scalar) : sql_eq a b = true -> a = b.
Proof.
  destruct a, b; simpl; try discriminate; intros H;
    now apply scalar_eqb_eq.
Qed.

(** X18: after an upsert over records that all carry their key, every
    scanned record's key is the [uuid] of some row of the relation. *)
Theorem upsert_stores_every_key (cfg : config) (scan_dynamodb : list json)
  (w : world) (rec : json) :
  Forall (fun rec => carries_key rec = true) scan_dynamodb ->
  In rec scan_dynamodb ->
  exists row,
    In row (rows_of (snow_table (snd (load_upsert cfg scan_dynamodb w))))
    /\ dict_get row "uuid" = key_of rec.
Proof.
  intros Hall Hin. destruct scan_dynamodb as [|first_rec rest];
    [contradiction|].
  pose proof Hall as Hall'. apply Forall_cons_iff in Hall' as [Hkey _].
  pose proof (infer_columns_NoDup first_rec) as Hnd.
  pose proof (uuid_in_columns first_rec Hkey) as Hid.
  rewrite (load_upsert_run cfg first_rec rest w Hkey).
  cbn [snd snow_table rows_of].
  set (m := merge_sql cfg (infer_columns first_rec)).
  assert (Hgood : Forall (good_row m) (upsert_rows (first_rec :: rest))).
  { unfold upsert_rows. apply Forall_forall. intros s Hs.
    apply in_map_iff in Hs as (rec' & <- & Hrec').
    rewrite Forall_forall in Hall. apply project_row_good; auto. }
  assert (Hs : In (project_row (infer_columns first_rec) rec)
                 (upsert_rows (first_rec :: rest)))
    by (unfold upsert_rows; now apply in_map).
  pose proof (merge_all_covers m (merge_update_no_key cfg _) _
                (rows_of (snow_table w)) Hgood _ Hs) as Hcov.
  apply existsb_exists in Hcov as (row & Hrow & Hm).
  exists row. split; [exact Hrow|].
  unfold merge_matches in Hm. simpl fst in Hm. simpl snd in Hm.
  apply sql_eq_eq in Hm. rewrite Hm. now apply project_row_key.
Qed.

Lemma upsert_stores_every_key_witness :
  exists row,
    In row (rows_of (snow_table (snd (load_upsert cfg_example
                                        [record_a; record_b]
                                        world_with_old_row))))
    /\ dict_get row "uuid" = key_of record_b.
Proof.
  apply (upsert_stores_every_key cfg_example [record_a; record_b]
           world_with_old_row record_b).
  - repeat constructor.
  - simpl. right. now left.
Defined.

(** ** Loading into an empty relation *)

Lemma merge_all_fresh m rows : forall t,
  fst (merge_on m) = snd (merge_on m) ->
  Forall (good_row m) rows ->
  NoDup (map (fun s => dict_get s (snd (merge_on m))) rows) ->
  (forall s r, In s rows -> In r t -> merge_matches m s r = false) ->
  merge_all m rows t = t ++ rows.
Proof.
  induction rows as [|s rows IH]; intros t Hon Hgood Hnd Hno.
  - simpl. now rewrite app_nil_r.
  - apply Forall_cons_iff in Hgood as [(Hins & Hg2 & Hg3) Hgood].
    inversion Hnd as [|? ? Hn Hr]; subst.
    change (merge_all m (s :: rows) t)
      with (merge_all m rows (merge_rows m s t)).
    assert (Hex : existsb (merge_matches m s) t = false).
    { destruct (existsb (merge_matches m s) t) eqn:E; [|reflexivity].
      apply existsb_exists in E as (r & Hr' & Hm).
      rewrite (Hno s r) in Hm; [discriminate|now left|assumption]. }
    unfold merge_rows at 1. rewrite Hex, Hins.
    rewrite IH; try assumption.
    + now rewrite <- app_assoc.
    + intros s' r Hs' Hr'. apply in_app_iff in Hr' as [Hr'|[<-|[]]].
      * apply Hno; [now right|assumption].
      * unfold merge_matches.
        destruct (sql_eq (dict_get s (fst (merge_on m)))
                    (dict_get s' (snd (merge_on m)))) eqn:E; [|reflexivity].
        apply sql_eq_eq in E. exfalso. apply Hn.
        rewrite Hon in E. rewrite E.
        apply (in_map (fun s => dict_get s (snd (merge_on m)))). exact Hs'.
Qed.

(** X19: into a relation that is empty or does not exist yet, an upsert
    over records that all carry their key, with pairwise different keys,
    stores exactly one row per record, in scan order. *)
Theorem upsert_fresh_load (cfg : config) (scan_dynamodb : list json)
  (w : world) :
  Forall (fun rec => carries_key rec = true) scan_dynamodb ->
  NoDup (map key_of scan_dynamodb) ->
  rows_of (snow_table w) = [] ->
  snow_table (snd (load_upsert cfg scan_dynamodb w))
  = Some (upsert_rows scan_dynamodb).
Proof.
  intros Hall Hnd Hempty. destruct scan_dynamodb as [|first_rec rest].
  - cbn. destruct (snow_table w) as [t|]; simpl in *; now subst.
  - pose proof Hall as Hall'. apply Forall_cons_iff in Hall' as [Hkey _].
    pose proof (infer_columns_NoDup first_rec) as Hcols.
    pose proof (uuid_in_columns first_rec Hkey) as Hid.
    rewrite (load_upsert_run cfg first_rec rest w Hkey).
    cbn [snd snow_table]. rewrite Hempty. f_equal.
    rewrite merge_all_fresh; [reflexivity|reflexivity| | |intros ? ? _ []].
    + unfold upsert_rows. apply Forall_forall. intros s Hs.
      apply in_map_iff in Hs as (rec' & <- & Hrec').
      rewrite Forall_forall in Hall. apply project_row_good; auto.
    + unfold upsert_rows. rewrite map_map.
      erewrite map_ext; [exact Hnd|].
      intros rec. simpl. now apply project_row_key.
Qed.

Lemma upsert_fresh_load_witness :
  snow_table (snd (load_upsert cfg_example [record_a; record_b] world0))
  = Some [row_a; row_b].
Proof.
  apply (upsert_fresh_load cfg_example [record_a; record_b] world0).
  - repeat constructor.
  - repeat constructor; simpl; intuition discriminate.
  - reflexivity.
Defined.

(** ** The handler *)

Lemma merges_merge_calls cfg columns recs :
  merges (merge_calls cfg columns recs) = map (project_row columns) recs.
Proof.
  induction recs as [|rec recs IH]; simpl; [reflexivity|]. now rewrite IH.
Qed.

Lemma batches_merge_calls cfg columns recs :
  batches (merge_calls cfg columns recs) = [].
Proof. induction recs as [|rec recs IH]; simpl; [reflexivity|exact IH]. Qed.

(** X20: when the sample carries its key, the upsert entry point returns
    status 200 with its success text after exactly these calls: the
    create-if-absent statement, one merge per scanned record in scan order
    (the sample once), one commit, the closing of the cursor and the closing
    of the connection; it never writes a batch. *)
Theorem upsert_handler_call_sequence (cfg : config) (first_rec : json)
  (rest : list json) (w : world) :
  carries_key first_rec = true ->
  fst (incremental_upsert_handler cfg (first_rec :: rest) w)
    = Ret upsert_response
  /\ calls (snd (incremental_upsert_handler cfg (first_rec :: rest) w))
     = calls w
         ++ Execute (CREATE_TABLE_DDL cfg) []
         :: merge_calls cfg (infer_columns first_rec) (first_rec :: rest)
         ++ [Commit; CursorClose; ConnClose]
  /\ merges (calls (snd (incremental_upsert_handler cfg (first_rec :: rest)
                           w)))
     = merges (calls w)
         ++ map (project_row (infer_columns first_rec)) (first_rec :: rest)
  /\ batches (calls (snd (incremental_upsert_handler cfg (first_rec :: rest)
                            w)))
     = batches (calls w).
Proof.
  intros Hkey.
  assert (E : incremental_upsert_handler cfg (first_rec :: rest) w
              = (Ret upsert_response,
                 record ConnClose
                   (snd (load_upsert cfg (first_rec :: rest) w)))).
  { unfold incremental_upsert_handler, try_finally, bind at 1.
    rewrite (load_upsert_run cfg first_rec rest w Hkey). reflexivity. }
  rewrite E. rewrite (load_upsert_run cfg first_rec rest w Hkey).
  cbn [fst snd record calls].
  fold (merge_calls cfg (infer_columns first_rec) (first_rec :: rest)).
  assert (Hcalls :
    (calls w
       ++ Execute (CREATE_TABLE_DDL cfg) []
       :: merge_calls cfg (infer_columns first_rec) (first_rec :: rest)
       ++ [Commit; CursorClose]) ++ [ConnClose]
    = calls w
        ++ [Execute (CREATE_TABLE_DDL cfg) []]
        ++ merge_calls cfg (infer_columns first_rec) (first_rec :: rest)
        ++ [Commit; CursorClose; ConnClose]).
  { rewrite <- !app_assoc. simpl. rewrite <- !app_assoc. reflexivity. }
  rewrite Hcalls. repeat split.
  - rewrite !merges_app, merges_merge_calls. simpl. now rewrite app_nil_r.
  - rewrite !batches_app, batches_merge_calls. simpl. now rewrite app_nil_r.
Qed.

Lemma upsert_handler_call_sequence_witness :
  merges (calls (snd (incremental_upsert_handler cfg_example
                        [record_a; record_b] world0)))
  = merges (calls world0)
      ++ map (project_row (infer_columns record_a)) [record_a; record_b].
Proof.
  apply (upsert_handler_call_sequence cfg_example record_a [record_b] world0).
  reflexivity.
Defined.

(** * The seeding script *)

Lemma put_all_items (reqs items : list json) :
  Forall2 (fun req item => LoadToDynamodb.item_of req = LoadToDynamodb.Ok item)
    reqs items ->
  forall puts,
    LoadToDynamodb.put_all reqs puts = (LoadToDynamodb.Ok tt, puts ++ items).
Proof.
  induction 1 as [|req item reqs items Hreq _ IH]; intros puts; simpl.
  - now rewrite app_nil_r.
  - rewrite Hreq, IH, <- app_assoc. reflexivity.
Qed.

Lemma put_all_stops (good items : list json) (bad : json)
  (e : LoadToDynamodb.pyerror) (rest : list json) :
  Forall2 (fun req item => LoadToDynamodb.item_of req = LoadToDynamodb.Ok item)
    good items ->
  LoadToDynamodb.item_of bad = LoadToDynamodb.Err e ->
  forall puts,
    LoadToDynamodb.put_all (good ++ bad :: rest) puts
    = (LoadToDynamodb.Err e, puts ++ items).
Proof.
  intros Hgood Hbad.
  induction Hgood as [|req item good items Hreq _ IH]; intros puts; simpl.
  - now rewrite Hbad, app_nil_r.
  - rewrite Hreq, IH, <- app_assoc. reflexivity.
Qed.

(** X22: when the file maps the table name to a list of requests and every
    request has an item under PutRequest and Item, the script hands exactly
    those items to the writer, in file order, and prints the count of
    requests with the table name. *)
Theorem main_puts_every_item (kvs : list (string * json))
  (reqs items : list json) :
  LoadToDynamodb.assoc kvs LoadToDynamodb.TABLE_NAME = Some (JList reqs) ->
  Forall2 (fun req item => LoadToDynamodb.item_of req = LoadToDynamodb.Ok item)
    reqs items ->
  LoadToDynamodb.main (JMap kvs)
  = (LoadToDynamodb.Ok tt,
     (items,
      [("Loaded " ++ str_of_nat (List.length reqs)
          ++ " items into DevNestedTable")%string]))
  /\ List.length items = List.length reqs.
Proof.
  intros Hget Hreqs. split; [|symmetry; apply (Forall2_length Hreqs)].
  unfold LoadToDynamodb.main. simpl. rewrite Hget. simpl.
  now rewrite (put_all_items reqs items Hreqs []).
Qed.

Lemma main_puts_every_item_witness :
  LoadToDynamodb.main
    (JMap [("Other", JList []);
           ("DevNestedTable",
            JList [LoadToDynamodb.put_request record_a;
                   LoadToDynamodb.put_request record_b])])
  = (LoadToDynamodb.Ok tt,
     ([record_a; record_b], ["Loaded 2 items into DevNestedTable"]))
  /\ List.length [record_a; record_b]
     = List.length [LoadToDynamodb.put_request record_a;
                    LoadToDynamodb.put_request record_b].
Proof.
  apply (main_puts_every_item
           [("Other", JList []);
            ("DevNestedTable",
             JList [LoadToDynamodb.put_request record_a;
                    LoadToDynamodb.put_request record_b])]
           [LoadToDynamodb.put_request record_a;
            LoadToDynamodb.put_request record_b]
           [record_a; record_b]).
  - reflexivity.
  - repeat constructor.
Defined.

(** X23: when the file is an object without the table name, the default
    empty list is used: nothing is handed to the writer and the script
    reports zero items instead of failing. *)
Theorem main_without_table_entry (kvs : list (string * json)) :
  LoadToDynamodb.assoc kvs LoadToDynamodb.TABLE_NAME = None ->
  LoadToDynamodb.main (JMap kvs)
  = (LoadToDynamodb.Ok tt, ([], ["Loaded 0 items into DevNestedTable"])).
Proof.
  intros Hget. unfold LoadToDynamodb.main. simpl. now rewrite Hget.
Qed.

Lemma main_without_table_entry_witness :
  LoadToDynamodb.main (JMap [("OtherTable", JList [JLeaf SNone])])
  = (LoadToDynamodb.Ok tt, ([], ["Loaded 0 items into DevNestedTable"])).
Proof.
  apply (main_without_table_entry [("OtherTable", JList [JLeaf SNone])]).
  reflexivity.
Defined.

(** X24: the first request without an item stops the script with its error
    ([KeyError] for a missing key, [TypeError] for a request that is no
    object): the items of the requests before it have been handed to the
    writer, none after it, and nothing is printed. *)
Theorem main_stops_at_bad_request (kvs : list (string * json))
  (good items : list json) (bad : json) (e : LoadToDynamodb.pyerror)
  (rest : list json) :
  LoadToDynamodb.assoc kvs LoadToDynamodb.TABLE_NAME
    = Some (JList (good ++ bad :: rest)) ->
  Forall2 (fun req item => LoadToDynamodb.item_of req = LoadToDynamodb.Ok item)
    good items ->
  LoadToDynamodb.item_of bad = LoadToDynamodb.Err e ->
  LoadToDynamodb.main (JMap kvs) = (LoadToDynamodb.Err e, (items, [])).
Proof.
  intros Hget Hgood Hbad. unfold LoadToDynamodb.main. simpl.
  rewrite Hget. simpl.
  now rewrite (put_all_stops good items bad e rest Hgood Hbad []).
Qed.

Lemma main_stops_at_bad_request_witness :
  LoadToDynamodb.main
    (JMap [("DevNestedTable",
            JList [LoadToDynamodb.put_request record_a;
                   JMap [("DeleteRequest", JMap [])];
                   LoadToDynamodb.put_request record_b])])
  = (LoadToDynamodb.Err (LoadToDynamodb.KeyError "PutRequest"),
     ([record_a], [])).
Proof.
  apply (main_stops_at_bad_request
           [("DevNestedTable",
             JList [LoadToDynamodb.put_request record_a;
                    JMap [("DeleteRequest", JMap [])];
                    LoadToDynamodb.put_request record_b])]
           [LoadToDynamodb.put_request record_a] [record_a]
           (JMap [("DeleteRequest", JMap [])])
           (LoadToDynamodb.KeyError "PutRequest")
           [LoadToDynamodb.put_request record_b]).
  - reflexivity.
  - repeat constructor.
  - reflexivity.
Defined.

(** * More on the entry points and on records that share a key *)

Lemma app_tail_two {A} (a : list A) (x : A) (b c : list A) (y z : A) :
  (a ++ x :: b ++ c ++ [y]) ++ [z] = a ++ (x :: b ++ c) ++ [y; z].
Proof.
  rewrite <- (app_assoc a). f_equal. simpl. f_equal.
  rewrite <- !app_assoc. reflexivity.
Qed.

(** X25: for every non-empty scan the full-refresh entry point returns
    status 200 with its success text, leaves the relation as the rows it
    held before followed by the rows of the run, and closes the connection
    as its last call, after the cursor. *)
Theorem truncate_handler_outcome (cfg : config) (first_rec : json)
  (rest : list json) (w : world) :
  fst (truncate_load_handler cfg (first_rec :: rest) w) = Ret truncate_response
  /\ snow_table (snd (truncate_load_handler cfg (first_rec :: rest) w))
     = Some (rows_of (snow_table w)
               ++ project_row (infer_columns first_rec) first_rec
               :: map (project_row (infer_columns first_rec))
                    (first_rec :: rest))
  /\ exists cs,
       calls (snd (truncate_load_handler cfg (first_rec :: rest) w))
       = calls w ++ cs ++ [CursorClose; ConnClose].
Proof.
  assert (E : truncate_load_handler cfg (first_rec :: rest) w
              = (Ret truncate_response,
                 record ConnClose
                   (snd (load_truncate cfg (first_rec :: rest) w)))).
  { unfold truncate_load_handler, try_finally, bind at 1.
    rewrite load_truncate_run. reflexivity. }
  rewrite E. rewrite load_truncate_run. unfold record.
  cbn [fst snd snow_table calls].
  split; [reflexivity|]. split; [now rewrite truncate_rows_eq|].
  eexists. apply app_tail_two.
Qed.

(** ** Records that share a key *)

Lemma lookup_setitem_same (r : Row) (c : string) (v : scalar) :
  Dict.lookup (Dict.setitem r c v) c = Some v.
Proof.
  induction r as [|[k w] r IH]; simpl.
  - now rewrite String.eqb_refl.
  - destruct (String.eqb_spec k c) as [->|Hne]; simpl.
    + now rewrite String.eqb_refl.
    + destruct (String.eqb_spec k c); [congruence|exact IH].
Qed.

Lemma dict_get_set_columns_in cols (s : Row) c : forall r : Row,
  In c cols -> dict_get (set_columns cols s r) c = dict_get s c.
Proof.
  induction cols as [|c0 cols IH]; intros r Hin; [contradiction|].
  rewrite set_columns_cons.
  destruct (in_dec string_dec c cols) as [Hc|Hc]; [now apply IH|].
  destruct Hin as [->|Hin]; [|contradiction].
  rewrite dict_get_set_columns by assumption.
  unfold dict_get at 1. now rewrite lookup_setitem_same.
Qed.

Lemma holds_values_after_merge m s t :
  ~ In (fst (merge_on m)) (merge_update m) ->
  good_row m s ->
  holds_values m s (merge_rows m s t).
Proof.
  intros Hk (Hins & _ & _) row Hrow Hm c Hc. unfold merge_rows in Hrow.
  destruct (existsb (merge_matches m s) t) eqn:E.
  - apply in_map_iff in Hrow as (r & <- & Hr).
    rewrite (matches_update_matched m Hk) in Hm.
    unfold update_matched. rewrite Hm.
    now apply dict_get_set_columns_in.
  - apply in_app_iff in Hrow as [Hrow|[<-|[]]].
    + assert (existsb (merge_matches m s) t = true)
        by (apply existsb_exists; eauto).
      congruence.
    + now rewrite Hins.
Qed.

Lemma holds_values_kept m s s' t :
  ~ In (fst (merge_on m)) (merge_update m) ->
  good_row m s' ->
  (forall row, merge_matches m s row = true ->
               merge_matches m s' row = false) ->
  merge_matches m s s' = false ->
  holds_values m s t ->
  holds_values m s (merge_rows m s' t).
Proof.
  intros Hk (Hins & _ & _) Hother Hs' Hold row Hrow Hm.
  unfold merge_rows in Hrow.
  destruct (existsb (merge_matches m s') t) eqn:E.
  - apply in_map_iff in Hrow as (r & <- & Hr).
    rewrite (matches_update_matched m Hk) in Hm.
    rewrite (update_matched_unmatched m s' r (Hother r Hm)).
    now apply Hold.
  - apply in_app_iff in Hrow as [Hrow|[<-|[]]].
    + now apply Hold.
    + rewrite Hins in Hm. congruence.
Qed.

Lemma holds_values_kept_all m s rows :
  ~ In (fst (merge_on m)) (merge_update m) ->
  Forall (good_row m) rows ->
  (forall s' row, In s' rows -> merge_matches m s row = true ->
                  merge_matches m s' row = false) ->
  (forall s', In s' rows -> merge_matches m s s' = false) ->
  forall t, holds_values m s t -> holds_values m s (merge_all m rows t).
Proof.
  intros Hk. induction rows as [|s' rows IH]; intros Hgood Hother Hs t Hold.
  - exact Hold.
  - apply Forall_cons_iff in Hgood as [Hg Hgood].
    change (merge_all m (s' :: rows) t)
      with (merge_all m rows (merge_rows m s' t)).
    apply IH; try assumption.
    + intros s'' row Hin. apply Hother. now right.
    + intros s'' Hin. apply Hs. now right.
    + apply holds_values_kept; try assumption.
      * intros row. apply Hother. now left.
      * apply Hs. now left.
Qed.

Lemma sql_eq_neq (a b : scalar) : a <> b -> sql_eq a b = false.
Proof.
  intros Hne. destruct (sql_eq a b) eqn:E; [|reflexivity].
  apply sql_eq_eq in E. contradiction.
Qed.

(** X26: when several scanned records share a key, the last one wins: if no
    record after [rec] in the scan has its key, then after the upsert every
    row of the relation with that [uuid] holds, in every inferred column,
    the value [rec] has there (null where [rec] lacks the key). *)
Theorem upsert_last_record_wins (cfg : config) (pre : list json)
  (rec : json) (post : list json) (w : world) (row : Row) (c : string) :
  Forall (fun rec => carries_key rec = true) (pre ++ rec :: post) ->
  (forall rec', In rec' post -> key_of rec' <> key_of rec) ->
  In row (rows_of (snow_table
                     (snd (load_upsert cfg (pre ++ rec :: post) w)))) ->
  dict_get row "uuid" = key_of rec ->
  In c (infer_columns (hd rec pre)) ->
  dict_get row c = dict_get (flatten_json rec "" "_") c.
Proof.
  intros Hall Hpost Hrow Hkeyrow Hc.
  assert (Hscan : exists rest, pre ++ rec :: post = hd rec pre :: rest)
    by (destruct pre; simpl; eauto).
  destruct Hscan as [rest Hscan].
  set (first_rec := hd rec pre) in *.
  assert (Hkey : carries_key first_rec = true).
  { rewrite Hscan in Hall. now apply Forall_cons_iff in Hall as [H _]. }
  pose proof (infer_columns_NoDup first_rec) as Hnd.
  pose proof (uuid_in_columns first_rec Hkey) as Hid.
  rewrite Hscan, (load_upsert_run cfg first_rec rest w Hkey) in Hrow.
  cbn [snd snow_table rows_of] in Hrow.
  set (m := merge_sql cfg (infer_columns first_rec)) in *.
  set (proj := project_row (infer_columns first_rec)) in *.
  assert (Hrows : upsert_rows (first_rec :: rest)
                  = map proj pre ++ proj rec :: map proj post).
  { unfold upsert_rows. fold proj. rewrite <- Hscan.
    now rewrite map_app. }
  rewrite Hrows in Hrow. unfold merge_all in Hrow.
  rewrite fold_left_app in Hrow. cbn [fold_left] in Hrow.
  fold (merge_all m (map proj pre) (rows_of (snow_table w))) in Hrow.
  fold (merge_all m (map proj post)
          (merge_rows m (proj rec)
             (merge_all m (map proj pre) (rows_of (snow_table w))))) in Hrow.
  rewrite Forall_forall in Hall.
  assert (Hgood : forall r, In r (pre ++ rec :: post) -> good_row m (proj r)).
  { intros r Hr. apply project_row_good; auto. }
  assert (Hrec : In rec (pre ++ rec :: post))
    by (apply in_app_iff; right; now left).
  assert (Hpk : forall r, dict_get (proj r) "uuid" = key_of r)
    by (intros r; now apply project_row_key).
  destruct (String.eqb_spec c "uuid") as [->|Hne].
  { exact Hkeyrow. }
  assert (Hholds : holds_values m (proj rec)
                     (merge_all m (map proj post)
                        (merge_rows m (proj rec)
                           (merge_all m (map proj pre)
                              (rows_of (snow_table w)))))).
  { apply holds_values_kept_all.
    - apply merge_update_no_key.
    - apply Forall_forall. intros s Hs.
      apply in_map_iff in Hs as (r & <- & Hr).
      apply Hgood. apply in_app_iff. right. now right.
    - intros s' row' Hs' Hm.
      apply in_map_iff in Hs' as (r & <- & Hr).
      unfold merge_matches in *. simpl fst in *. simpl snd in *.
      apply sql_eq_eq in Hm. rewrite Hm, !Hpk.
      apply sql_eq_neq. intros E. now apply (Hpost r Hr).
    - intros s' Hs'. apply in_map_iff in Hs' as (r & <- & Hr).
      unfold merge_matches. simpl fst. simpl snd. rewrite !Hpk.
      apply sql_eq_neq. now apply Hpost.
    - apply holds_values_after_merge;
        [apply merge_update_no_key|now apply Hgood]. }
  rewrite (Hholds row Hrow).
  - unfold proj, project_row. rewrite (project_map _ _ Hnd).
    now apply dict_get_map_pair.
  - unfold merge_matches. simpl fst. simpl snd. rewrite Hpk, Hkeyrow.
    apply sql_eq_refl. fold (key_of rec).
    now apply carries_key_spec, Hall.
  - apply merge_update_spec. split; assumption.
Qed.

Lemma upsert_last_record_wins_witness :
  dict_get [("uuid", SStr "a"); ("v", SNum 9)] "v"
  = dict_get (flatten_json record_a_again "" "_") "v".
Proof.
  apply (upsert_last_record_wins cfg_example [record_a] record_a_again []
           world0 [("uuid", SStr "a"); ("v", SNum 9)] "v").
  - repeat constructor.
  - intros rec' [].
  - vm_compute. left. reflexivity.
  - reflexivity.
  - vm_compute. right. left. reflexivity.
Defined.
